(** * soundsync: the source/sink registry and the peer registry

    A shallow embedding of

      - [src/audio/audio_sources_sinks_manager.ts]
        (class [AudioSourcesSinksManager]), and
      - [src/communication/peers_manager.ts] (class [PeersManager]),

    followed by the properties of these two classes that the
    specification states.

    Conventions.  A JavaScript value that may be [undefined] is an
    [option]; a string is a [string]; an array is a [list] (push appends
    at the end, an element mutated in place is a list update at its
    index); the [peers] object, used as a dictionary, is a [gmap] with
    the list of its keys in the order of their creation.  A
    method is a function from the state of its object to a completion
    (normal or thrown) and the state it leaves behind, so that what a
    method has already done when it throws stays visible. *)

From stdpp Require Import base strings list sorting gmap.

(** ** JavaScript values and completions *)

(** [v] used as a condition, for a [v] that is a string or [undefined]:
    [undefined] and the empty string are falsy. *)
Definition truthy (v : option string) : bool :=
  match v with
  | Some s => bool_decide (s ≠ "")
  | None => false
  end.

(** [v || d], for a [v] that is a string or [undefined]. *)
Definition or_else (v : option string) (d : string) : string :=
  match v with
  | Some s => if truthy v then s else d
  | None => d
  end.

(** The line feed of a template literal. *)
Definition LF : string := String (Ascii.ascii_of_nat 10) EmptyString.

(** What a [throw] carries: [new Error(message)], or the HTTP error that
    Koa's [ctx.throw(message, status)] raises. *)
Inductive Exception : Type :=
  | Error (message : string)
  | HttpError (status : nat) (message : string).

(** How a call ends. *)
Inductive Completion (A : Type) : Type :=
  | Normal (a : A)
  | Throw (e : Exception).
Arguments Normal {A} a.
Arguments Throw {A} e.

(** The message of an exception; it is the reason of the promise that an
    [async] function rejects when its body throws. *)
Definition exception_message (e : Exception) : string :=
  match e with
  | Error message => message
  | HttpError _ message => message
  end.

(** How a promise settles. *)
Inductive Settled (A : Type) : Type :=
  | Fulfilled (a : A)
  | Rejected (reason : string).
Arguments Fulfilled {A} a.
Arguments Rejected {A} reason.

(** *** The order of the keys of an object

    [Object.keys], [for...in] and lodash's [_.map] and [_.filter] on an
    object visit its own keys in this order: first the keys that are array
    indices, by increasing value, then the other string keys in the order
    in which they were created. *)

Definition digit (a : Ascii.ascii) : option N :=
  let n := Ascii.N_of_ascii a in
  if (48 <=? n)%N && (n <=? 57)%N then Some (n - 48)%N else None.

Fixpoint digits (acc : N) (s : string) : option N :=
  match s with
  | EmptyString => Some acc
  | String a s' =>
      match digit a with
      | Some d => digits (10 * acc + d)%N s'
      | None => None
      end
  end.

(** The array index that a key is, if it is one: a decimal numeral without
    sign or leading zero, below [2^32 - 1]. *)
Definition array_index (key : string) : option N :=
  match key with
  | EmptyString => None
  | String a rest =>
      if (Ascii.N_of_ascii a =? 48)%N && negb (String.eqb rest "") then None
      else match digits 0 key with
           | Some n => if (n <? 4294967295)%N then Some n else None
           | None => None
           end
  end.

Definition index_le (key1 key2 : string) : Prop :=
  (default 0 (array_index key1) ≤ default 0 (array_index key2))%N.

#[global] Instance index_le_dec (key1 key2 : string) :
  Decision (index_le key1 key2).
Proof. unfold index_le. apply _. Defined.

(** The keys [created], listed in the order of their creation, in the
    order in which the object is visited. *)
Definition visiting_order (created : list string) : list string :=
  merge_sort index_le (filter (λ key, is_Some (array_index key)) created)
  ++ filter (λ key, ¬ is_Some (array_index key)) created.

(** The property names that every object inherits from
    [Object.prototype]: [object[name]] is defined for them, and is not a
    peer, before any such key has been assigned. *)
Definition Object_prototype_names : list string :=
  ["constructor"; "__defineGetter__"; "__defineSetter__"; "hasOwnProperty";
   "__lookupGetter__"; "__lookupSetter__"; "isPrototypeOf";
   "propertyIsEnumerable"; "toString"; "valueOf"; "__proto__";
   "toLocaleString"].

(** [t] occurs inside [s]. *)
Definition occurs_in (t s : string) : Prop :=
  ∃ before after, s = before +:+ t +:+ after.

(** ** The source/sink registry *)

Module AudioSourcesSinksManager.

(** [SourceDescriptor] and [SinkDescriptor]: the plain data handed to
    [addSource] and [addSink].  [uuid], [peerUuid] and [deviceName] may be
    missing. *)
Record SourceDescriptor : Type := {
  sd_uuid : option string;
  sd_name : string;
  sd_type : string;
  sd_peerUuid : option string;
}.

Record SinkDescriptor : Type := {
  kd_uuid : option string;
  kd_name : string;
  kd_type : string;
  kd_peerUuid : option string;
  kd_deviceName : option string;
}.

(** The class an entity is an instance of ([instanceof]). *)
Inductive SourceClass : Type := LibrespotSource | NullSource | RemoteSource.
Inductive SinkClass : Type := RtAudioSink | NullSink | RemoteSink.

(** Modelled from the spec: the entity classes ([AudioSource],
    [AudioSink] and their subclasses) live in files that are not embedded
    here.  Section
    3 gives an entity the attributes [uuid], [name], [type], [peerUuid]
    and, for a device-backed sink, the device name; the class is what the
    constructor called by [addSource]/[addSink] fixes. *)
Record AudioSource : Type := {
  source_class : SourceClass;
  source_uuid : option string;
  source_name : string;
  source_type : string;
  source_peerUuid : option string;
}.

(** Modelled from the spec: a sink, with the attributes of a source and
    the device name. *)
Record AudioSink : Type := {
  sink_class : SinkClass;
  sink_uuid : option string;
  sink_name : string;
  sink_type : string;
  sink_peerUuid : option string;
  sink_deviceName : option string;
}.

(** One entry of [getAudioDevices()]. *)
Record AudioDevice : Type := {
  device_name : string;
  outputChannels : nat;
}.

#[global] Instance SourceClass_eq_dec : EqDecision SourceClass.
Proof. solve_decision. Defined.
#[global] Instance SinkClass_eq_dec : EqDecision SinkClass.
Proof. solve_decision. Defined.
#[global] Instance SourceDescriptor_eq_dec : EqDecision SourceDescriptor.
Proof. solve_decision. Defined.
#[global] Instance SinkDescriptor_eq_dec : EqDecision SinkDescriptor.
Proof. solve_decision. Defined.
#[global] Instance AudioSource_eq_dec : EqDecision AudioSource.
Proof. solve_decision. Defined.
#[global] Instance AudioSink_eq_dec : EqDecision AudioSink.
Proof. solve_decision. Defined.

(** The events the manager emits on itself. *)
Inductive Event : Type :=
  | sourceUpdate (source : AudioSource)
  | newLocalSource (source : AudioSource)
  | sinkUpdate (sink : AudioSink)
  | newLocalSink (sink : AudioSink).

(** One call of [updateConfigArrayItem(key, descriptor)].  The persisted
    configuration is owned by the coordinator; the manager changes it
    through these calls only, so the list of calls made stands for it. *)
Inductive ConfigWrite : Type :=
  | config_sources (descriptor : SourceDescriptor)
  | config_sinks (descriptor : SinkDescriptor).

(** The manager: its two arrays, and the two things it does to the
    outside, in order: the events emitted and the configuration writes. *)
Record Manager : Type := {
  sources : list AudioSource;
  sinks : list AudioSink;
  emitted : list Event;
  config : list ConfigWrite;
}.

(** [new AudioSourcesSinksManager()]. *)
Definition empty : Manager :=
  {| sources := []; sinks := []; emitted := []; config := [] |}.

(** *** Methods as state transformers *)

Definition M (A : Type) : Type := Manager → Completion A * Manager.

Definition ret {A} (a : A) : M A := λ st, (Normal a, st).
Definition throw {A} (e : Exception) : M A := λ st, (Throw e, st).
Definition bind {A B} (m : M A) (k : A → M B) : M B :=
  λ st, match m st with
        | (Normal a, st') => k a st'
        | (Throw e, st') => (Throw e, st')
        end.
Definition get : M Manager := λ st, (Normal st, st).
Definition put (st : Manager) : M unit := λ _, (Normal tt, st).

Notation "'let*' x ':=' m 'in' k" := (bind m (λ x, k))
  (at level 10, x name, m at level 100, k at level 200).

(** [xs.forEach(f)]: a throw of [f] ends the loop. *)
Fixpoint forEach {A} (f : A → M unit) (xs : list A) : M unit :=
  match xs with
  | [] => ret tt
  | x :: xs' => let* _ := f x in forEach f xs'
  end.

Section Manager.

(** [getLocalPeer().uuid]. *)
Variable localUuid : string.

(** [!peerUuid || peerUuid === getLocalPeer().uuid]. *)
Definition isLocal (peerUuid : option string) : bool :=
  negb (truthy peerUuid) || bool_decide (peerUuid = Some localUuid).

(** Modelled from the spec: the attribute [local] of an entity, "derived:
    true iff [peerUuid] is empty or equals local peer uuid" (section 3). *)
Definition source_local (source : AudioSource) : bool :=
  isLocal (source_peerUuid source).

(** Modelled from the spec: the attribute [local] of a sink, derived in the
    same way. *)
Definition sink_local (sink : AudioSink) : bool :=
  isLocal (sink_peerUuid sink).

(** Modelled from the spec: [toDescriptor()], the descriptor of an entity
    (glossary: "the plain data representation" of the entity). *)
Definition source_toDescriptor (source : AudioSource) : SourceDescriptor :=
  {| sd_uuid := source_uuid source; sd_name := source_name source;
     sd_type := source_type source; sd_peerUuid := source_peerUuid source |}.

(** Modelled from the spec: [toDescriptor()] of a sink. *)
Definition sink_toDescriptor (sink : AudioSink) : SinkDescriptor :=
  {| kd_uuid := sink_uuid sink; kd_name := sink_name sink;
     kd_type := sink_type sink; kd_peerUuid := sink_peerUuid sink;
     kd_deviceName := sink_deviceName sink |}.

(** Modelled from the spec: the constructors [new LibrespotSource(d, this)],
    [new NullSource(d, this)] and [new RemoteSource(d, this)].  The
    entity carries the fields of its descriptor. *)
Definition new_source (c : SourceClass) (d : SourceDescriptor) : AudioSource :=
  {| source_class := c; source_uuid := sd_uuid d; source_name := sd_name d;
     source_type := sd_type d; source_peerUuid := sd_peerUuid d |}.

(** Modelled from the spec: the constructors [new RtAudioSink(d, this)],
    [new NullSink(d, this)] and [new RemoteSink(d, this)]. *)
Definition new_sink (c : SinkClass) (d : SinkDescriptor) : AudioSink :=
  {| sink_class := c; sink_uuid := kd_uuid d; sink_name := kd_name d;
     sink_type := kd_type d; sink_peerUuid := kd_peerUuid d;
     sink_deviceName := kd_deviceName d |}.


(** Modelled from the spec: what [updateInfo(descriptor)] leaves in the
    entity.  After it the entity is "reflecting the latest fields"
    (section 8, property 2): a field the descriptor defines is taken from
    the descriptor, a field it leaves undefined is kept; the class of the
    object does not change. *)
Definition source_updateInfo (source : AudioSource) (d : SourceDescriptor)
  : AudioSource :=
  {| source_class := source_class source;
     source_uuid := from_option Some (source_uuid source) (sd_uuid d);
     source_name := sd_name d;
     source_type := sd_type d;
     source_peerUuid := from_option Some (source_peerUuid source) (sd_peerUuid d) |}.

(** Modelled from the spec: [updateInfo(descriptor)] of a sink, as for a
    source, with the device name among the fields. *)
Definition sink_updateInfo (sink : AudioSink) (d : SinkDescriptor) : AudioSink :=
  {| sink_class := sink_class sink;
     sink_uuid := from_option Some (sink_uuid sink) (kd_uuid d);
     sink_name := kd_name d;
     sink_type := kd_type d;
     sink_peerUuid := from_option Some (sink_peerUuid sink) (kd_peerUuid d);
     sink_deviceName := from_option Some (sink_deviceName sink) (kd_deviceName d) |}.

(** [updateConfigArrayItem(key, descriptor)], as the call it is. *)
Definition updateConfigArrayItem (w : ConfigWrite) : M unit :=
  λ st, (Normal tt,
         {| sources := sources st; sinks := sinks st;
            emitted := emitted st; config := config st ++ [w] |}).

(** The two listeners of the constructor (lines 28-37). *)
Definition updateConfigForSource (source : AudioSource) : M unit :=
  if source_local source
  then updateConfigArrayItem (config_sources (source_toDescriptor source))
  else ret tt.

Definition updateConfigForSink (sink : AudioSink) : M unit :=
  if sink_local sink
  then updateConfigArrayItem (config_sinks (sink_toDescriptor sink))
  else ret tt.

(** [this.emit(event, entity)]: the event is emitted and the listeners
    registered by the constructor (lines 38-42) run at once. *)
Definition emit (e : Event) : M unit :=
  let* st := get in
  let* _ := put {| sources := sources st; sinks := sinks st;
                   emitted := emitted st ++ [e]; config := config st |} in
  match e with
  | sourceUpdate source | newLocalSource source => updateConfigForSource source
  | sinkUpdate sink | newLocalSink sink => updateConfigForSink sink
  end.

Definition set_sources (l : list AudioSource) : M unit :=
  λ st, (Normal tt,
         {| sources := l; sinks := sinks st;
            emitted := emitted st; config := config st |}).

Definition set_sinks (l : list AudioSink) : M unit :=
  λ st, (Normal tt,
         {| sources := sources st; sinks := l;
            emitted := emitted st; config := config st |}).

(** Modelled from the spec: the call [entity.updateInfo(descriptor)] on the
    source at index [i] of [this.sources].  The object is changed where it
    stands, and it emits the "entity updated" event on the manager (section
    4.3).  The spec promises the event for a local entity; here every
    update emits it, so that the listener's own test of [local] is what
    keeps a remote entity out of the configuration. *)
Definition updateInfo_source (i : nat) (source : AudioSource)
    (d : SourceDescriptor) : M unit :=
  let source' := source_updateInfo source d in
  let* st := get in
  let* _ := set_sources (<[i := source']> (sources st)) in
  emit (sourceUpdate source').

(** Modelled from the spec: the call [entity.updateInfo(descriptor)] on the
    sink at index [i] of [this.sinks], as for a source. *)
Definition updateInfo_sink (i : nat) (sink : AudioSink)
    (d : SinkDescriptor) : M unit :=
  let sink' := sink_updateInfo sink d in
  let* st := get in
  let* _ := set_sinks (<[i := sink']> (sinks st)) in
  emit (sinkUpdate sink').

(** [_.find(this.sources, {uuid: uuid})]: the first source with this uuid,
    with its index. *)
Definition getSourceByUuid (uuid : string) (st : Manager)
  : option (nat * AudioSource) :=
  list_find (λ source, source_uuid source = Some uuid) (sources st).

Definition getSinkByUuid (uuid : string) (st : Manager)
  : option (nat * AudioSink) :=
  list_find (λ sink, sink_uuid sink = Some uuid) (sinks st).

(** [uuid && find(uuid)]. *)
Definition and_then {A} (uuid : option string) (find : string → option A)
  : option A :=
  match uuid with
  | Some u => if truthy (Some u) then find u else None
  | None => None
  end.

(** [addSource(sourceDescriptor)], lines 62-88. *)
Definition addSource (sourceDescriptor : SourceDescriptor) : M unit :=
  let* st := get in
  match and_then (sd_uuid sourceDescriptor) (λ u, getSourceByUuid u st) with
  | Some (i, existingSource) =>
      updateInfo_source i existingSource sourceDescriptor
  | None =>
      let* source :=
        (if negb (isLocal (sd_peerUuid sourceDescriptor))
         then ret (new_source RemoteSource sourceDescriptor)
         else if String.eqb (sd_type sourceDescriptor) "librespot"
         then ret (new_source LibrespotSource sourceDescriptor)
         else if String.eqb (sd_type sourceDescriptor) "null"
         then ret (new_source NullSource sourceDescriptor)
         else throw (Error ("Unknown source type " +:+ sd_type sourceDescriptor)))
      in
      let* _ := set_sources (sources st ++ [source]) in
      if source_local source then emit (newLocalSource source) else ret tt
  end.

(** [removeSource(uuid)], lines 90-99. *)
Definition removeSource (uuid : string) : M unit :=
  let* st := get in
  match list_find (λ source, source_uuid source = Some uuid) (sources st) with
  | None => ret tt
  | Some _ =>
      set_sources (filter (λ source, source_uuid source ≠ Some uuid) (sources st))
  end.

(** The search of [addSink] by device name (lines 106-110):
    [sinkDescriptor.type === 'rtaudio' && sinkDescriptor.peerUuid ===
    getLocalPeer().uuid], and then [_.find(this.sinks, (sink) => sink
    instanceof RtAudioSink && sink.deviceName ===
    sinkDescriptor.deviceName)]. *)
Definition sameDevice (d : SinkDescriptor) (st : Manager)
  : option (nat * AudioSink) :=
  if String.eqb (kd_type d) "rtaudio"
     && bool_decide (kd_peerUuid d = Some localUuid)
  then list_find
         (λ sink, sink_class sink = RtAudioSink
                  ∧ sink_deviceName sink = kd_deviceName d)
         (sinks st)
  else None.

(** [addSink(sinkDescriptor)], lines 101-137. *)
Definition addSink (sinkDescriptor : SinkDescriptor) : M unit :=
  let* st := get in
  match and_then (kd_uuid sinkDescriptor) (λ u, getSinkByUuid u st) with
  | Some (i, existingSink) => updateInfo_sink i existingSink sinkDescriptor
  | None =>
      match sameDevice sinkDescriptor st with
      | Some (i, existingSink) => updateInfo_sink i existingSink sinkDescriptor
      | None =>
          let* sink :=
            (if negb (isLocal (kd_peerUuid sinkDescriptor))
             then ret (new_sink RemoteSink sinkDescriptor)
             else if String.eqb (kd_type sinkDescriptor) "rtaudio"
             then ret (new_sink RtAudioSink sinkDescriptor)
             else if String.eqb (kd_type sinkDescriptor) "null"
             then ret (new_sink NullSink sinkDescriptor)
             else throw (Error ("Unknown sink type " +:+ kd_type sinkDescriptor)))
          in
          let* _ := set_sinks (sinks st ++ [sink]) in
          if sink_local sink then emit (newLocalSink sink) else ret tt
      end
  end.

(** [removeSink(uuid)], lines 139-148. *)
Definition removeSink (uuid : string) : M unit :=
  let* st := get in
  match list_find (λ sink, sink_uuid sink = Some uuid) (sinks st) with
  | None => ret tt
  | Some _ =>
      set_sinks (filter (λ sink, sink_uuid sink ≠ Some uuid) (sinks st))
  end.

(** [autodetectDevices()], lines 45-57, over the list that
    [getAudioDevices()] returns. *)
Definition autodetectDevices (devices : list AudioDevice) : M unit :=
  forEach
    (λ device,
       if bool_decide (0 < outputChannels device)
       then addSink {| kd_type := "rtaudio";
                       kd_deviceName := Some (device_name device);
                       kd_name := device_name device;
                       kd_peerUuid := Some localUuid;
                       kd_uuid := None |}
       else ret tt)
    devices.

(** The descriptor that [autodetectDevices] hands to [addSink] for a
    device (lines 49-54). *)
Definition detected (device : AudioDevice) : SinkDescriptor :=
  {| kd_type := "rtaudio";
     kd_deviceName := Some (device_name device);
     kd_name := device_name device;
     kd_peerUuid := Some localUuid;
     kd_uuid := None |}.

(** [addFromConfig()], lines 150-159, over what [getConfigField] returns
    for ['sources'] and for ['sinks']. *)
Definition addFromConfig (configSources : list SourceDescriptor)
    (configSinks : list SinkDescriptor) : M unit :=
  let* _ := forEach addSource configSources in
  forEach addSink configSinks.

(** *** The state a call leaves

    Written out, for the statements below. *)

(** The state after [updateInfo] on the source at index [i]. *)
Definition source_updated (i : nat) (source' : AudioSource) (st : Manager)
  : Manager :=
  {| sources := <[i := source']> (sources st);
     sinks := sinks st;
     emitted := emitted st ++ [sourceUpdate source'];
     config := config st ++
       (if source_local source'
        then [config_sources (source_toDescriptor source')] else []) |}.

(** The state after a new source has been pushed. *)
Definition source_pushed (source : AudioSource) (st : Manager) : Manager :=
  {| sources := sources st ++ [source];
     sinks := sinks st;
     emitted := emitted st ++
       (if source_local source then [newLocalSource source] else []);
     config := config st ++
       (if source_local source
        then [config_sources (source_toDescriptor source)] else []) |}.

Definition sink_updated (i : nat) (sink' : AudioSink) (st : Manager)
  : Manager :=
  {| sources := sources st;
     sinks := <[i := sink']> (sinks st);
     emitted := emitted st ++ [sinkUpdate sink'];
     config := config st ++
       (if sink_local sink'
        then [config_sinks (sink_toDescriptor sink')] else []) |}.

Definition sink_pushed (sink : AudioSink) (st : Manager) : Manager :=
  {| sources := sources st;
     sinks := sinks st ++ [sink];
     emitted := emitted st ++
       (if sink_local sink then [newLocalSink sink] else []);
     config := config st ++
       (if sink_local sink
        then [config_sinks (sink_toDescriptor sink)] else []) |}.

(** A caller's sequence of calls; a call that throws is caught and the
    next one is made on the state the throw left. *)
Inductive Call : Type :=
  | call_addSource (d : SourceDescriptor)
  | call_addSink (d : SinkDescriptor)
  | call_removeSource (uuid : string)
  | call_removeSink (uuid : string).

Definition call (c : Call) : M unit :=
  match c with
  | call_addSource d => addSource d
  | call_addSink d => addSink d
  | call_removeSource uuid => removeSource uuid
  | call_removeSink uuid => removeSink uuid
  end.

Definition run (cs : list Call) (st : Manager) : Manager :=
  foldl (λ st c, (call c st).2) st cs.

End Manager.

(** The uuids that count for identity: the non-empty ones, in the order of
    the collection. *)
Definition uuids (l : list (option string)) : list string :=
  omap (λ v, if truthy v then v else None) l.

(** Distinct non-empty uuids in each of the two collections. *)
Definition distinct_uuids (st : Manager) : Prop :=
  NoDup (uuids (source_uuid <$> sources st))
  ∧ NoDup (uuids (sink_uuid <$> sinks st)).

End AudioSourcesSinksManager.

(** ** The peer registry *)

Module PeersManager.

(** The class a peer is an instance of: [existingPeer instanceof
    WebrtcPeer] tells the two apart. *)
Inductive PeerClass : Type := LocalPeer | WebrtcPeer.

(** The connection state of a peer (section 3); the code reads it as
    [p.state === 'connected']. *)
Inductive PeerState : Type := connecting | connected | disconnected.

(** Modelled from the spec: the class [Peer] and its subclasses live in
    files that are not embedded here.  Section 3 gives a peer the
    attributes [uuid], [name], [host], [instanceUuid] and [state]. *)
Record Peer : Type := {
  peer_class : PeerClass;
  peer_uuid : string;
  peer_name : string;
  peer_host : string;
  peer_instanceUuid : string;
  peer_state : PeerState;
}.

#[global] Instance PeerClass_eq_dec : EqDecision PeerClass.
Proof. solve_decision. Defined.
#[global] Instance PeerState_eq_dec : EqDecision PeerState.
Proof. solve_decision. Defined.
#[global] Instance Peer_eq_dec : EqDecision Peer.
Proof. solve_decision. Defined.

(** [ControllerMessage]: the discovery message that this file builds, and
    any other message by its type. *)
Inductive ControllerMessage : Type :=
  | peerDiscovery (peersUuid : list string)
  | otherMessage (type : string).

(** What the manager does, in the order it does it: the calls it makes on
    peers, and its assignments [this.peers[uuid] = peer]. *)
Inductive Effect : Type :=
  | disconnect (peer : Peer) (force : bool)
  | set_peer (uuid : string) (peer : Peer)
  | handlePeerConnectionMessage (peer : Peer) (description : string)
  | connectFromHttpApi (peer : Peer) (host : string)
      (forceIfSamePeerUuid : option bool)
  | connectFromOtherPeers (peer : Peer)
  | sendControllerMessage (peer : Peer) (message : ControllerMessage)
      (completion : Completion (Settled bool)).

(** The manager: the dictionary [peers], with its keys in the order in
    which they were created ([order]), the listeners registered with
    [this.on], and what the manager has done so far.

    A uuid is taken as an ordinary property name of [peers]: the names
    that [peers] inherits as an object ([Object_prototype_names]) are not
    given the values they have in JavaScript. *)
Record PeersManager : Type := {
  peers : gmap string Peer;
  order : list string;
  listeners : list string;
  trace : list Effect;
}.

(** The body of a request to [/connect_webrtc_peer], with the address it
    comes from ([ctx.request.ip]). *)
Record ConnectRequest : Type := {
  req_name : string;
  req_uuid : string;
  req_description : string;
  req_version : string;
  req_instanceUuid : string;
  req_ip : string;
}.

(** [ctx.body] of the answer. *)
Record ConnectResponse : Type := {
  res_status : string;
  res_description : string;
  res_uuid : string;
  res_name : string;
  res_instanceUuid : string;
}.

(** [Promise.all(promises)]: rejected as soon as one of the promises is,
    fulfilled with all the values otherwise.  The promises are given as
    they settle; of several rejections the first of the array is the one
    reported. *)
Fixpoint Promise_all {A} (promises : list (Settled A)) : Settled (list A) :=
  match promises with
  | [] => Fulfilled []
  | Rejected reason :: _ => Rejected reason
  | Fulfilled a :: rest =>
      match Promise_all rest with
      | Fulfilled values => Fulfilled (a :: values)
      | Rejected reason => Rejected reason
      end
  end.

Definition log (e : Effect) (st : PeersManager) : PeersManager :=
  {| peers := peers st; order := order st; listeners := listeners st;
     trace := trace st ++ [e] |}.

(** [this.peers[uuid] = peer]: a key that exists keeps its place, a new
    key is created after the others. *)
Definition assign (uuid : string) (peer : Peer) (st : PeersManager)
  : PeersManager :=
  {| peers := <[uuid := peer]> (peers st);
     order := match peers st !! uuid with
              | Some _ => order st
              | None => order st ++ [uuid]
              end;
     listeners := listeners st;
     trace := trace st ++ [set_peer uuid peer] |}.

(** Modelled from the spec: [new WebrtcPeer({uuid, name, host,
    instanceUuid})].  A peer that has just been created is not connected:
    it "remains Disconnected until the transport resolves" (section 4.2). *)
Definition new_WebrtcPeer (uuid name host instanceUuid : string) : Peer :=
  {| peer_class := WebrtcPeer; peer_uuid := uuid; peer_name := name;
     peer_host := host; peer_instanceUuid := instanceUuid;
     peer_state := disconnected |}.

(** Modelled from the spec: [peer.disconnect(force)] on the peer that
    [this.peers[uuid]] holds; it "forces its state to Disconnected"
    (section 5).  The object is changed where the registry holds it. *)
Definition Peer_disconnect (uuid : string) (peer : Peer) (force : bool)
    (st : PeersManager) : PeersManager :=
  {| peers := <[uuid :=
        {| peer_class := peer_class peer; peer_uuid := peer_uuid peer;
           peer_name := peer_name peer; peer_host := peer_host peer;
           peer_instanceUuid := peer_instanceUuid peer;
           peer_state := disconnected |}]> (peers st);
     order := order st;
     listeners := listeners st;
     trace := trace st ++ [disconnect peer force] |}.

(** [order] lists the keys of [peers], each once: so it is in every
    manager that the operations below build. *)
Definition order_lists_keys (st : PeersManager) : Prop :=
  NoDup (order st) ∧ ∀ key, key ∈ order st ↔ is_Some (peers st !! key).

(** The own keys of [this.peers], in the order in which they are visited:
    that of [order], when it lists the keys.  The two lines on listed and
    unlisted keys make the definition total over any record. *)
Definition own_keys (st : PeersManager) : list string :=
  let listed :=
    reverse (remove_dups (reverse
      (filter (λ key, is_Some (peers st !! key)) (order st)))) in
  let unlisted :=
    filter (λ key, key ∉ order st) (map_to_list (peers st)).*1 in
  visiting_order (listed ++ unlisted).

(** The values of [this.peers], as [_.map] and [_.filter] visit them. *)
Definition peers_values (st : PeersManager) : list Peer :=
  omap (λ key, peers st !! key) (own_keys st).

Section Manager.

(** [getLocalPeer()], the peer of this process. *)
Variable getLocalPeer : Peer.

(** The protocol version of this process. *)
Variable SOUNDSYNC_VERSION : string.

(** The message of the version check (line 42). *)
Definition versionMismatch (version : string) : string :=
  "Different version of Soundsync, please check each client is on the same version."
  +:+ LF +:+ "Own version: " +:+ SOUNDSYNC_VERSION
  +:+ LF +:+ "Other peer version: " +:+ version.

(** The registry that the constructor builds (lines 26-33): the local
    peer under its uuid, and the listener of ['newConnectedPeer']. *)
Definition constructed : PeersManager :=
  assign (peer_uuid getLocalPeer) getLocalPeer
    {| peers := ∅; order := []; listeners := ["newConnectedPeer"];
       trace := [] |}.

(** [new PeersManager()], lines 21-34, given the module variable
    [peersManager]. *)
Definition new_PeersManager (peersManager : option PeersManager)
  : Completion PeersManager :=
  match peersManager with
  | Some _ => Throw (Error "Cannot create multiple peers managers")
  | None => Normal constructed
  end.

(** [getPeersManager()], lines 131-136: the completion of the call and
    the module variable [peersManager] after it. *)
Definition getPeersManager (peersManager : option PeersManager)
  : Completion PeersManager * option PeersManager :=
  match peersManager with
  | Some manager => (Normal manager, peersManager)
  | None =>
      match new_PeersManager peersManager with
      | Normal manager => (Normal manager, Some manager)
      | Throw e => (Throw e, peersManager)
      end
  end.

(** [_.map(_.filter(this.peers, (p) => p.state === 'connected'),
    (p) => p.uuid)]. *)
Definition connectedPeersUuid (st : PeersManager) : list string :=
  peer_uuid <$> filter (λ p, peer_state p = connected) (peers_values st).

(** The listener of ['newConnectedPeer'] (lines 28-33); [completion] is
    how the send to that peer ends. *)
Definition onNewConnectedPeer (completion : Completion (Settled bool))
    (peer : Peer) (st : PeersManager) : PeersManager :=
  log (sendControllerMessage peer (peerDiscovery (connectedPeersUuid st))
         completion) st.

(** The handler of [POST /connect_webrtc_peer], lines 37-67.  [handshake]
    is how [peer.handlePeerConnectionMessage] settles; when it rejects,
    the [await] throws and the request fails, after the assignment. *)
Definition connect_webrtc_peer (body : ConnectRequest)
    (handshake : Settled string) (st : PeersManager)
  : Completion ConnectResponse * PeersManager :=
  if bool_decide (req_version body ≠ SOUNDSYNC_VERSION)
  then (Throw (HttpError 400 (versionMismatch (req_version body))), st)
  else
    let existingPeer := peers st !! req_uuid body in
    let st1 :=
      match existingPeer with
      | Some existingPeer =>
          if bool_decide (peer_class existingPeer = WebrtcPeer)
             && bool_decide (peer_instanceUuid existingPeer
                             ≠ req_instanceUuid body)
          then Peer_disconnect (req_uuid body) existingPeer true st
          else st
      | None => st
      end in
    let peer :=
      new_WebrtcPeer (req_uuid body) (req_name body) (req_ip body)
        (req_instanceUuid body) in
    let st2 := assign (req_uuid body) peer st1 in
    let st3 := log (handlePeerConnectionMessage peer (req_description body)) st2 in
    match handshake with
    | Rejected reason => (Throw (Error reason), st3)
    | Fulfilled responseDescription =>
        (Normal {| res_status := "ok";
                   res_description := responseDescription;
                   res_uuid := peer_uuid getLocalPeer;
                   res_name := peer_name getLocalPeer;
                   res_instanceUuid := peer_instanceUuid getLocalPeer |},
         st3)
    end.

(** [joinPeerWithHttpApi(host, uuid, forceIfSamePeerUuid)], lines 84-93;
    [outcome] is how [peer.connectFromHttpApi] settles. *)
Definition joinPeerWithHttpApi (host : string) (uuid : option string)
    (forceIfSamePeerUuid : option bool) (outcome : Settled unit)
    (st : PeersManager) : Settled unit * PeersManager :=
  let peer :=
    new_WebrtcPeer (or_else uuid ("placeholderForHttpApiJoin_" +:+ host))
      "remote" host "placeholder" in
  let st1 := assign (peer_uuid peer) peer st in
  (outcome, log (connectFromHttpApi peer host forceIfSamePeerUuid) st1).

(** [sendToPeer] of [broadcast] (lines 103-108): the call it makes, if it
    makes one, and how it completes.  [net peer] is the completion of
    [peer.sendControllerMessage(message)]: the promise it returns, with
    the way that promise settles, or the exception it throws. *)
Definition sendToPeer (net : Peer → Completion (Settled bool))
    (message : ControllerMessage) (ignorePeerByUuid : list string)
    (peer : Peer) : option Effect * Completion (Settled bool) :=
  if bool_decide (peer_uuid peer ∈ ignorePeerByUuid)
  then (None, Normal (Fulfilled false))
  else (Some (sendControllerMessage peer message (net peer)), net peer).

(** [_.map(this.peers, sendToPeer)]: [sendToPeer] is called on one peer
    after the other; when a call throws, [_.map] is left at once and the
    peers that remain are not visited.  The result is the calls made and
    the array of promises, or the exception. *)
Fixpoint map_sendToPeer (net : Peer → Completion (Settled bool))
    (message : ControllerMessage) (ignorePeerByUuid : list string)
    (values : list Peer) : list Effect * Completion (list (Settled bool)) :=
  match values with
  | [] => ([], Normal [])
  | peer :: rest =>
      match sendToPeer net message ignorePeerByUuid peer with
      | (call, Throw e) => (option_list call, Throw e)
      | (call, Normal promise) =>
          let sent := map_sendToPeer net message ignorePeerByUuid rest in
          (option_list call ++ sent.1,
           match sent.2 with
           | Normal promises => Normal (promise :: promises)
           | Throw e => Throw e
           end)
      end
  end.

(** [broadcast(message, ignorePeerByUuid)], lines 102-110: the promises of
    [_.map] are awaited together.  [broadcast] is an [async] function: an
    exception thrown in its body rejects the promise it returns. *)
Definition broadcast (net : Peer → Completion (Settled bool))
    (message : ControllerMessage) (ignorePeerByUuid : list string)
    (st : PeersManager) : Settled unit * PeersManager :=
  let sent :=
    map_sendToPeer net message ignorePeerByUuid (peers_values st) in
  (match sent.2 with
   | Throw e => Rejected (exception_message e)
   | Normal promises =>
       match Promise_all promises with
       | Fulfilled _ => Fulfilled tt
       | Rejected reason => Rejected reason
       end
   end,
   {| peers := peers st; order := order st; listeners := listeners st;
      trace := trace st ++ sent.1 |}).

(** [broadcastPeersDiscoveryInfo()], lines 95-100; the promise of
    [broadcast] is dropped. *)
Definition broadcastPeersDiscoveryInfo
    (net : Peer → Completion (Settled bool))
    (st : PeersManager) : PeersManager :=
  (broadcast net (peerDiscovery (connectedPeersUuid st)) [] st).2.

(** [getPeerByUuid(uuid, autoConnect)], lines 112-126. *)
Definition getPeerByUuid (uuid : string) (autoConnect : bool)
    (st : PeersManager) : Peer * PeersManager :=
  match peers st !! uuid with
  | Some peer => (peer, st)
  | None =>
      let peer := new_WebrtcPeer uuid "remote" "unknown" "placeholder" in
      let st1 := assign uuid peer st in
      (peer, if autoConnect then log (connectFromOtherPeers peer) st1 else st1)
  end.

(** [onControllerMessage(type, handler)], line 128: one more listener. *)
Definition onControllerMessage (type : string) (st : PeersManager)
  : PeersManager :=
  {| peers := peers st;
     order := order st;
     listeners := listeners st ++ ["controllerMessage:" +:+ type];
     trace := trace st |}.

(** The operations of the registry. *)
Inductive Op : Type :=
  | op_connect_webrtc_peer (body : ConnectRequest) (handshake : Settled string)
  | op_joinPeerWithHttpApi (host : string) (uuid : option string)
      (forceIfSamePeerUuid : option bool) (outcome : Settled unit)
  | op_getPeerByUuid (uuid : string) (autoConnect : bool)
  | op_broadcast (net : Peer → Completion (Settled bool))
      (message : ControllerMessage) (ignorePeerByUuid : list string)
  | op_broadcastPeersDiscoveryInfo (net : Peer → Completion (Settled bool))
  | op_onControllerMessage (type : string)
  | op_newConnectedPeer (completion : Completion (Settled bool))
      (peer : Peer).

Definition step (o : Op) (st : PeersManager) : PeersManager :=
  match o with
  | op_connect_webrtc_peer body handshake =>
      (connect_webrtc_peer body handshake st).2
  | op_joinPeerWithHttpApi host uuid force outcome =>
      (joinPeerWithHttpApi host uuid force outcome st).2
  | op_getPeerByUuid uuid autoConnect => (getPeerByUuid uuid autoConnect st).2
  | op_broadcast net message ignore => (broadcast net message ignore st).2
  | op_broadcastPeersDiscoveryInfo net => broadcastPeersDiscoveryInfo net st
  | op_onControllerMessage type => onControllerMessage type st
  | op_newConnectedPeer completion peer =>
      onNewConnectedPeer completion peer st
  end.

Definition steps (os : list Op) (st : PeersManager) : PeersManager :=
  foldl (λ st o, step o st) st os.

(** The uuid under which an operation assigns a peer, if it names one
    outright. *)
Definition names (o : Op) : option string :=
  match o with
  | op_connect_webrtc_peer body _ => Some (req_uuid body)
  | op_joinPeerWithHttpApi host uuid _ _ =>
      Some (or_else uuid ("placeholderForHttpApiJoin_" +:+ host))
  | _ => None
  end.

End Manager.

End PeersManager.

(** ** Concrete managers and registries

    The inputs at which the statements below are instantiated. *)

Import AudioSourcesSinksManager.
Import PeersManager.

(** The uuid of the local peer. *)
Definition uuid_L : string := "L".

Definition null_s1 : SourceDescriptor :=
  {| sd_uuid := Some "s1"; sd_name := "N"; sd_type := "null";
     sd_peerUuid := None |}.

Definition null_s1_renamed : SourceDescriptor :=
  {| sd_uuid := Some "s1"; sd_name := "N again"; sd_type := "null";
     sd_peerUuid := Some "L" |}.

(** Two descriptors whose uuid is the empty string. *)
Definition null_no_uuid : SourceDescriptor :=
  {| sd_uuid := Some ""; sd_name := "N"; sd_type := "null";
     sd_peerUuid := None |}.

Definition null_no_uuid_renamed : SourceDescriptor :=
  {| sd_uuid := Some ""; sd_name := "N again"; sd_type := "null";
     sd_peerUuid := None |}.

Definition bogus_s1 : SourceDescriptor :=
  {| sd_uuid := Some "s1"; sd_name := "N"; sd_type := "bogus";
     sd_peerUuid := None |}.

Definition bogus_s2 : SourceDescriptor :=
  {| sd_uuid := Some "s2"; sd_name := "N"; sd_type := "bogus";
     sd_peerUuid := None |}.

Definition remote_s3 : SourceDescriptor :=
  {| sd_uuid := Some "s3"; sd_name := "radio"; sd_type := "librespot";
     sd_peerUuid := Some "A" |}.

Definition null_k1 : SinkDescriptor :=
  {| kd_uuid := Some "s1"; kd_name := "N"; kd_type := "null";
     kd_peerUuid := None; kd_deviceName := None |}.

Definition speakers : AudioDevice :=
  {| device_name := "Speakers"; outputChannels := 2 |}.

Definition microphone : AudioDevice :=
  {| device_name := "Microphone"; outputChannels := 0 |}.

(** What [autodetectDevices] hands to [addSink] for [speakers]. *)
Definition speakers_detected : SinkDescriptor :=
  {| kd_uuid := None; kd_name := "Speakers"; kd_type := "rtaudio";
     kd_peerUuid := Some "L"; kd_deviceName := Some "Speakers" |}.

(** The same device, described without [peerUuid]. *)
Definition speakers_no_peer : SinkDescriptor :=
  {| kd_uuid := None; kd_name := "Speakers"; kd_type := "rtaudio";
     kd_peerUuid := None; kd_deviceName := Some "Speakers" |}.

(** A manager after the device scan. *)
Definition scanned : Manager :=
  (autodetectDevices uuid_L [microphone; speakers] empty).2.

(** A manager with the source and the sink [s1]. *)
Definition with_s1 : Manager :=
  run uuid_L [call_addSource null_s1; call_addSink null_k1] empty.

(** A manager with a source whose uuid is the empty string. *)
Definition with_no_uuid : Manager :=
  run uuid_L [call_addSource null_no_uuid] empty.

Definition local_L : Peer :=
  {| peer_class := LocalPeer; peer_uuid := "L"; peer_name := "me";
     peer_host := "127.0.0.1"; peer_instanceUuid := "i0";
     peer_state := connected |}.

Definition version_1_9 : string := "1.9".

(** Requests: from peer A, from A restarted, from A restarted with
    another version, from B, and one that carries the local uuid. *)
Definition request (uuid version instanceUuid : string) : ConnectRequest :=
  {| req_name := uuid; req_uuid := uuid; req_description := "offer";
     req_version := version; req_instanceUuid := instanceUuid;
     req_ip := "10.0.0.2" |}.

Definition request_A : ConnectRequest := request "A" "1.9" "i1".
Definition request_A_restarted : ConnectRequest := request "A" "1.9" "i2".
Definition request_A_other_version : ConnectRequest := request "A" "2.0" "i2".
Definition request_B : ConnectRequest := request "B" "1.9" "j1".
Definition request_L : ConnectRequest := request "L" "1.9" "i1".

Definition peer_A : Peer := new_WebrtcPeer "A" "A" "10.0.0.2" "i1".
Definition peer_A_restarted : Peer := new_WebrtcPeer "A" "A" "10.0.0.2" "i2".
Definition peer_B : Peer := new_WebrtcPeer "B" "B" "10.0.0.2" "j1".

(** The registry of the process [local_L] after A has connected, and after
    A and B have. *)
Definition registry_LA : PeersManager :=
  steps local_L version_1_9
    [op_connect_webrtc_peer request_A (Fulfilled "answer")]
    (constructed local_L).

Definition registry_LAB : PeersManager :=
  steps local_L version_1_9
    [op_connect_webrtc_peer request_A (Fulfilled "answer");
     op_connect_webrtc_peer request_B (Fulfilled "answer")]
    (constructed local_L).

(** A network on which every send to A is rejected. *)
Definition A_unreachable (p : Peer) : Completion (Settled bool) :=
  if decide (p = peer_A) then Normal (Rejected "closed")
  else Normal (Fulfilled true).

(** A network on which every send to A throws. *)
Definition A_throws (p : Peer) : Completion (Settled bool) :=
  if decide (p = peer_A) then Throw (Error "channel closed")
  else Normal (Fulfilled true).

(** A registry in which peers with numeric uuids have connected, after
    one with an ordinary uuid. *)
Definition registry_numeric : PeersManager :=
  steps local_L version_1_9
    [op_connect_webrtc_peer (request "b" "1.9" "i") (Fulfilled "answer");
     op_connect_webrtc_peer (request "10" "1.9" "i") (Fulfilled "answer");
     op_connect_webrtc_peer (request "9" "1.9" "i") (Fulfilled "answer");
     op_connect_webrtc_peer (request "07" "1.9" "i") (Fulfilled "answer")]
    (constructed local_L).

(** * Properties of the source/sink registry *)

(** Unfolds the plumbing of a method down to the state it returns. *)
Ltac run_method :=
  unfold updateInfo_source, updateInfo_sink, emit, updateConfigForSource,
    updateConfigForSink, updateConfigArrayItem, set_sources, set_sinks,
    bind, get, put, ret, throw; simpl.

(** ** Lists of uuids *)

Arguments uuids : simpl never.

Lemma uuids_app (l k : list (option string)) :
  uuids (l ++ k) = uuids l ++ uuids k.
Proof. unfold uuids. apply omap_app. Qed.

Lemma elem_of_uuids (l : list (option string)) (u : string) :
  u ∈ uuids l ↔ u ≠ "" ∧ Some u ∈ l.
Proof.
  unfold uuids. rewrite list_elem_of_omap. split.
  - intros (v & Hv & Hu). destruct v as [s|]; simpl in Hu; [|done].
    destruct (decide (s = "")) as [->|Hs].
    + by rewrite bool_decide_eq_false_2 in Hu by (intros ?; done).
    + rewrite bool_decide_eq_true_2 in Hu by done. by simplify_eq.
  - intros [Hne Hin]. exists (Some u). split; [done|].
    simpl. by rewrite bool_decide_eq_true_2.
Qed.

Lemma uuids_cons_falsy (v : option string) (l : list (option string)) :
  truthy v = false → uuids (v :: l) = uuids l.
Proof. intros H. unfold uuids. simpl. by rewrite H. Qed.

Lemma uuids_cons_truthy (u : string) (l : list (option string)) :
  u ≠ "" → uuids (Some u :: l) = u :: uuids l.
Proof.
  intros H. unfold uuids. simpl. by rewrite bool_decide_eq_true_2.
Qed.

Lemma truthy_Some (v : option string) :
  truthy v = true ↔ ∃ u, v = Some u ∧ u ≠ "".
Proof.
  destruct v as [s|]; unfold truthy.
  - rewrite bool_decide_eq_true. split; [eauto|]. by intros (u & [= <-] & ?).
  - split; [done|]. by intros (u & ? & ?).
Qed.

Lemma truthy_Some_2 (u : string) : u ≠ "" → truthy (Some u) = true.
Proof. intros. apply truthy_Some. eauto. Qed.

(** Appending a uuid that is falsy, or not yet there, keeps the uuids
    distinct. *)
Lemma NoDup_uuids_snoc (l : list (option string)) (v : option string) :
  NoDup (uuids l) →
  (truthy v = true → v ∉ l) →
  NoDup (uuids (l ++ [v])).
Proof.
  intros Hl Hv. rewrite uuids_app. apply NoDup_app. split; [done|]. split.
  - intros u Hu Hu'. apply elem_of_uuids in Hu as [Hne Hin].
    apply elem_of_uuids in Hu' as [_ Hin'].
    apply list_elem_of_singleton in Hin'. subst v.
    apply Hv; [|done]. by apply truthy_Some_2.
  - destruct (truthy v) eqn:E.
    + apply truthy_Some in E as (u & -> & Hne).
      rewrite uuids_cons_truthy by done. apply NoDup_singleton.
    + rewrite uuids_cons_falsy by done. apply NoDup_nil_2.
Qed.

(** Overwriting one position with a uuid that is falsy, or not in the
    list, keeps the uuids distinct. *)
Lemma NoDup_uuids_insert (l : list (option string)) (i : nat)
    (v : option string) :
  NoDup (uuids l) →
  (truthy v = true → v ∉ l) →
  NoDup (uuids (<[i := v]> l)).
Proof.
  revert i. induction l as [|w l IH]; intros i Hl Hv; [done|].
  assert (Hl' : NoDup (uuids l)).
  { destruct (truthy w) eqn:E.
    - apply truthy_Some in E as (u & -> & Hne).
      rewrite uuids_cons_truthy in Hl by done. by apply NoDup_cons in Hl as [_ ?].
    - by rewrite uuids_cons_falsy in Hl. }
  destruct i as [|i]; simpl.
  - destruct (truthy v) eqn:E.
    + apply truthy_Some in E as (u & -> & Hne).
      rewrite uuids_cons_truthy by done. apply NoDup_cons. split; [|done].
      rewrite elem_of_uuids. intros [_ Hin]. apply Hv; [done|by right].
    + by rewrite uuids_cons_falsy.
  - assert (Hv' : truthy v = true → v ∉ l).
    { intros E Hin. apply (Hv E). by right. }
    destruct (truthy w) eqn:E.
    + apply truthy_Some in E as (u & -> & Hne).
      rewrite uuids_cons_truthy in * by done.
      apply NoDup_cons in Hl as [Hu _]. apply NoDup_cons. split; [|by apply IH].
      rewrite elem_of_uuids in *. intros [_ Hin]. 
      destruct (decide (v = Some u)) as [->|Hvu].
      * apply Hv; [|by left]. by apply truthy_Some_2.
      * apply Hu. split; [done|].
        apply list_elem_of_lookup in Hin as [j Hj].
        apply list_lookup_insert_Some in Hj as [(_ & ? & _)|[_ Hj]]; [done|].
        apply list_elem_of_lookup. eauto.
    + rewrite uuids_cons_falsy in * by done. by apply IH.
Qed.

(** The same facts for a collection [l] of entities whose uuid is read by
    [f]. *)
Section Collections.

Context {A : Type} (f : A → option string).

Lemma NoDup_uuids_cons (x : A) (l : list A) :
  NoDup (uuids (f <$> x :: l)) ↔
  (∀ u, f x = Some u → u ≠ "" → ∀ y, y ∈ l → f y ≠ Some u)
  ∧ NoDup (uuids (f <$> l)).
Proof.
  rewrite fmap_cons. destruct (truthy (f x)) eqn:E.
  - apply truthy_Some in E as (u & E & Hne). rewrite E.
    rewrite uuids_cons_truthy by done. rewrite NoDup_cons, elem_of_uuids.
    split; intros [H1 H2]; (split; [|done]).
    + intros u' [= <-] _ y Hy Hfy. apply H1. split; [done|].
      rewrite <-Hfy. by apply list_elem_of_fmap_2.
    + intros [_ (y & Hfy & Hy)%list_elem_of_fmap]. by eapply H1.
  - rewrite uuids_cons_falsy by done. split; [|by intros [_ ?]].
    intros H. split; [|done]. intros u Hu Hne.
    rewrite Hu, truthy_Some_2 in E; done.
Qed.

Lemma NoDup_uuids_filter (P : A → Prop) `{!∀ x, Decision (P x)} (l : list A) :
  NoDup (uuids (f <$> l)) → NoDup (uuids (f <$> filter P l)).
Proof.
  induction l as [|x l IH]; [done|].
  rewrite NoDup_uuids_cons. intros [Hx Hl].
  destruct (decide (P x)).
  - rewrite filter_cons_True by done. apply NoDup_uuids_cons.
    split; [|by apply IH].
    intros u Hu Hne y [_ Hy]%list_elem_of_filter. by eapply Hx.
  - rewrite filter_cons_False by done. by apply IH.
Qed.

(** Two positions that hold the same non-empty uuid are one position. *)
Lemma NoDup_uuids_lookup (l : list A) (i j : nat) (x y : A) :
  NoDup (uuids (f <$> l)) →
  l !! i = Some x → l !! j = Some y →
  truthy (f x) = true → f x = f y → i = j.
Proof.
  revert i j. induction l as [|z l IH]; intros i j; [done|].
  rewrite NoDup_uuids_cons. intros [Hz Hl] Hi Hj Ht Hxy.
  apply truthy_Some in Ht as (u & Hu & Hne).
  destruct i as [|i], j as [|j]; simpl in *; simplify_eq; [done|..].
  - exfalso. eapply Hz; [done..| |by rewrite <-Hxy].
    apply list_elem_of_lookup. eauto.
  - exfalso. eapply Hz; [by rewrite <-Hxy|done| |done].
    apply list_elem_of_lookup. eauto.
  - f_equal. eapply IH; [done..| |done]. apply truthy_Some. eauto.
Qed.

Lemma filter_uuid_absent (l : list A) (v : option string) :
  (∀ y, y ∈ l → f y ≠ v) → filter (λ y, f y = v) l = [].
Proof.
  induction l as [|y l IH]; intros H; [done|].
  rewrite filter_cons_False by (apply H; by left).
  apply IH. intros y' Hy'. apply H. by right.
Qed.

Lemma filter_uuid_id (l : list A) (v : option string) :
  (∀ y, y ∈ l → f y ≠ v) → filter (λ y, f y ≠ v) l = l.
Proof.
  induction l as [|y l IH]; intros H; [done|].
  rewrite filter_cons_True by (apply H; by left).
  f_equal. apply IH. intros y' Hy'. apply H. by right.
Qed.

(** With distinct uuids, the entities that carry a given non-empty uuid
    are the one entity found there. *)
Lemma NoDup_uuids_filter_singleton (l : list A) (i : nat) (x : A) (u : string) :
  NoDup (uuids (f <$> l)) →
  l !! i = Some x → f x = Some u → u ≠ "" →
  filter (λ y, f y = Some u) l = [x].
Proof.
  revert i. induction l as [|z l IH]; intros i; [done|].
  rewrite NoDup_uuids_cons. intros [Hz Hl] Hi Hx Hne.
  destruct i as [|i]; simpl in Hi; simplify_eq.
  - rewrite filter_cons_True by done. f_equal.
    apply filter_uuid_absent. by apply Hz.
  - rewrite filter_cons_False; [by eapply IH|].
    intros Hzu. apply (Hz u Hzu Hne x); [|done].
    apply list_elem_of_lookup. eauto.
Qed.

(** Overwriting an entity by one with the same uuid does not change the
    list of uuids. *)
Lemma fmap_insert_same_uuid (l : list A) (i : nat) (x x' : A) :
  l !! i = Some x → f x' = f x → f <$> <[i := x']> l = f <$> l.
Proof.
  intros Hi Hf. rewrite list_fmap_insert, Hf.
  apply list_insert_id. by rewrite list_lookup_fmap, Hi.
Qed.

End Collections.

(** ** What a call returns *)

Lemma and_then_Some {A} (v : option string) (find : string → option A) (r : A) :
  and_then v find = Some r ↔ ∃ u, v = Some u ∧ u ≠ "" ∧ find u = Some r.
Proof.
  unfold and_then. destruct v as [u|].
  - destruct (truthy (Some u)) eqn:E.
    + apply truthy_Some in E as (u' & [= <-] & Hne).
      split; [eauto|]. by intros (u' & [= <-] & _ & ?).
    + split; [done|]. intros (u' & [= <-] & Hne & _).
      by rewrite truthy_Some_2 in E.
  - split; [done|]. by intros (u & ? & _).
Qed.

Lemma and_then_None {A} (v : option string) (find : string → option A) :
  and_then v find = None ↔ ∀ u, v = Some u → u ≠ "" → find u = None.
Proof.
  unfold and_then. destruct v as [u|].
  - destruct (truthy (Some u)) eqn:E.
    + apply truthy_Some in E as (u' & [= <-] & Hne).
      split; [by intros ? ? [= <-]|]. intros H. by apply H.
    + split; [|done]. intros _ u' [= <-] Hne.
      by rewrite truthy_Some_2 in E.
  - split; [|done]. by intros _ u.
Qed.

Section Steps.

Variable localUuid : string.

Lemma Manager_eta (st : Manager) :
  {| sources := sources st; sinks := sinks st;
     emitted := emitted st; config := config st |} = st.
Proof. by destruct st. Qed.

Lemma updateInfo_source_run (i : nat) (s : AudioSource) (d : SourceDescriptor)
    (st : Manager) :
  updateInfo_source localUuid i s d st
  = (Normal tt, source_updated localUuid i (source_updateInfo s d) st).
Proof.
  unfold source_updated. run_method.
  destruct (source_local _ _); run_method; by rewrite ?app_nil_r.
Qed.

Lemma updateInfo_sink_run (i : nat) (k : AudioSink) (d : SinkDescriptor)
    (st : Manager) :
  updateInfo_sink localUuid i k d st
  = (Normal tt, sink_updated localUuid i (sink_updateInfo k d) st).
Proof.
  unfold sink_updated. run_method.
  destruct (sink_local _ _); run_method; by rewrite ?app_nil_r.
Qed.

(** [addSource] when the descriptor's uuid is that of a source. *)
Lemma addSource_existing (d : SourceDescriptor) (st : Manager) (i : nat)
    (s : AudioSource) :
  and_then (sd_uuid d) (λ u, getSourceByUuid u st) = Some (i, s) →
  addSource localUuid d st
  = (Normal tt, source_updated localUuid i (source_updateInfo s d) st).
Proof.
  intros H. unfold addSource, bind at 1, get. rewrite H.
  apply updateInfo_source_run.
Qed.

(** [addSource] when it is not: the three constructors, or the throw. *)
Lemma addSource_absent (d : SourceDescriptor) (st : Manager) :
  and_then (sd_uuid d) (λ u, getSourceByUuid u st) = None →
  addSource localUuid d st =
    if negb (isLocal localUuid (sd_peerUuid d))
    then (Normal tt, source_pushed localUuid (new_source RemoteSource d) st)
    else if String.eqb (sd_type d) "librespot"
    then (Normal tt, source_pushed localUuid (new_source LibrespotSource d) st)
    else if String.eqb (sd_type d) "null"
    then (Normal tt, source_pushed localUuid (new_source NullSource d) st)
    else (Throw (Error ("Unknown source type " +:+ sd_type d)), st).
Proof.
  intros H. unfold addSource, bind at 1, get. rewrite H.
  unfold source_pushed.
  repeat (case_match; try done);
    run_method; repeat (case_match; try done);
    run_method; by rewrite ?app_nil_r.
Qed.

Lemma addSink_existing (d : SinkDescriptor) (st : Manager) (i : nat)
    (k : AudioSink) :
  and_then (kd_uuid d) (λ u, getSinkByUuid u st) = Some (i, k) →
  addSink localUuid d st
  = (Normal tt, sink_updated localUuid i (sink_updateInfo k d) st).
Proof.
  intros H. unfold addSink, bind at 1, get. rewrite H.
  apply updateInfo_sink_run.
Qed.

Lemma addSink_sameDevice (d : SinkDescriptor) (st : Manager) (i : nat)
    (k : AudioSink) :
  and_then (kd_uuid d) (λ u, getSinkByUuid u st) = None →
  sameDevice localUuid d st = Some (i, k) →
  addSink localUuid d st
  = (Normal tt, sink_updated localUuid i (sink_updateInfo k d) st).
Proof.
  intros H1 H2. unfold addSink, bind at 1, get. rewrite H1, H2.
  apply updateInfo_sink_run.
Qed.

Lemma addSink_absent (d : SinkDescriptor) (st : Manager) :
  and_then (kd_uuid d) (λ u, getSinkByUuid u st) = None →
  sameDevice localUuid d st = None →
  addSink localUuid d st =
    if negb (isLocal localUuid (kd_peerUuid d))
    then (Normal tt, sink_pushed localUuid (new_sink RemoteSink d) st)
    else if String.eqb (kd_type d) "rtaudio"
    then (Normal tt, sink_pushed localUuid (new_sink RtAudioSink d) st)
    else if String.eqb (kd_type d) "null"
    then (Normal tt, sink_pushed localUuid (new_sink NullSink d) st)
    else (Throw (Error ("Unknown sink type " +:+ kd_type d)), st).
Proof.
  intros H1 H2. unfold addSink, bind at 1, get. rewrite H1, H2.
  unfold sink_pushed.
  repeat (case_match; try done);
    run_method; repeat (case_match; try done);
    run_method; by rewrite ?app_nil_r.
Qed.

(** [removeSource] and [removeSink] return normally, and what they leave
    is the collection without the entities of that uuid. *)
Lemma removeSource_run (uuid : string) (st : Manager) :
  removeSource uuid st
  = (Normal tt,
     {| sources := filter (λ s, source_uuid s ≠ Some uuid) (sources st);
        sinks := sinks st; emitted := emitted st; config := config st |}).
Proof.
  unfold removeSource, bind, get.
  destruct (list_find _ _) as [r|] eqn:E; [done|].
  apply list_find_None in E. rewrite Forall_forall in E.
  unfold ret. rewrite filter_uuid_id by done. by rewrite Manager_eta.
Qed.

Lemma removeSink_run (uuid : string) (st : Manager) :
  removeSink uuid st
  = (Normal tt,
     {| sources := sources st;
        sinks := filter (λ k, sink_uuid k ≠ Some uuid) (sinks st);
        emitted := emitted st; config := config st |}).
Proof.
  unfold removeSink, bind, get.
  destruct (list_find _ _) as [r|] eqn:E; [done|].
  apply list_find_None in E. rewrite Forall_forall in E.
  unfold ret. rewrite filter_uuid_id by done. by rewrite Manager_eta.
Qed.

(** ** The invariant: distinct non-empty uuids in each collection *)

Lemma getSourceByUuid_None (u : string) (st : Manager) :
  getSourceByUuid u st = None → Some u ∉ source_uuid <$> sources st.
Proof.
  intros H%list_find_None (s & Hs & Hin)%list_elem_of_fmap.
  rewrite Forall_forall in H. by apply (H s).
Qed.

Lemma getSinkByUuid_None (u : string) (st : Manager) :
  getSinkByUuid u st = None → Some u ∉ sink_uuid <$> sinks st.
Proof.
  intros H%list_find_None (s & Hs & Hin)%list_elem_of_fmap.
  rewrite Forall_forall in H. by apply (H s).
Qed.

Lemma addSource_distinct_uuids (d : SourceDescriptor) (st : Manager) :
  distinct_uuids st → distinct_uuids (addSource localUuid d st).2.
Proof.
  intros [Hs Hk].
  destruct (and_then (sd_uuid d) (λ u, getSourceByUuid u st))
    as [[i s]|] eqn:E.
  - rewrite (addSource_existing _ _ _ _ E). split; [|done]. simpl.
    apply and_then_Some in E as (u & Hu & Hne & Hfind).
    apply list_find_Some in Hfind as (Hi & Hsu & _).
    rewrite (fmap_insert_same_uuid _ _ _ s); [done..|].
    simpl. by rewrite Hu, Hsu.
  - rewrite (addSource_absent _ _ E).
    assert (Hnew : ∀ c, NoDup (uuids (source_uuid <$> sources st ++ [new_source c d]))).
    { intros c. rewrite fmap_app. apply NoDup_uuids_snoc; [done|].
      simpl. intros (u & Hu & Hne)%truthy_Some. rewrite Hu.
      apply getSourceByUuid_None. by eapply and_then_None in E. }
    repeat case_match; (split; simpl; [done || apply Hnew|done]).
Qed.

Lemma addSink_distinct_uuids (d : SinkDescriptor) (st : Manager) :
  distinct_uuids st → distinct_uuids (addSink localUuid d st).2.
Proof.
  intros [Hs Hk].
  destruct (and_then (kd_uuid d) (λ u, getSinkByUuid u st))
    as [[i k]|] eqn:E.
  - rewrite (addSink_existing _ _ _ _ E). split; [done|]. simpl.
    apply and_then_Some in E as (u & Hu & Hne & Hfind).
    apply list_find_Some in Hfind as (Hi & Hsu & _).
    rewrite (fmap_insert_same_uuid _ _ _ k); [done..|].
    simpl. by rewrite Hu, Hsu.
  - destruct (sameDevice localUuid d st) as [[i k]|] eqn:E'.
    + rewrite (addSink_sameDevice _ _ _ _ E E'). split; [done|]. simpl.
      unfold sameDevice in E'. case_match; [|done].
      apply list_find_Some in E' as (Hi & _ & _).
      destruct (kd_uuid d) as [u|] eqn:Hu.
      * rewrite list_fmap_insert. apply NoDup_uuids_insert; [done|].
        simpl. rewrite Hu. simpl. intros Hne%bool_decide_eq_true.
        apply getSinkByUuid_None. by eapply and_then_None in E.
      * rewrite (fmap_insert_same_uuid _ _ _ k); [done..|].
        simpl. by rewrite Hu.
    + rewrite (addSink_absent _ _ E E').
      assert (Hnew : ∀ c, NoDup (uuids (sink_uuid <$> sinks st ++ [new_sink c d]))).
      { intros c. rewrite fmap_app. apply NoDup_uuids_snoc; [done|].
        simpl. intros (u & Hu & Hne)%truthy_Some. rewrite Hu.
        apply getSinkByUuid_None. by eapply and_then_None in E. }
      repeat case_match; (split; simpl; [done|done || apply Hnew]).
Qed.

Lemma call_distinct_uuids (c : Call) (st : Manager) :
  distinct_uuids st → distinct_uuids (call localUuid c st).2.
Proof.
  destruct c as [d|d|u|u]; simpl.
  - apply addSource_distinct_uuids.
  - apply addSink_distinct_uuids.
  - rewrite removeSource_run. intros [Hs Hk]. split; [|done].
    by apply NoDup_uuids_filter.
  - rewrite removeSink_run. intros [Hs Hk]. split; [done|].
    by apply NoDup_uuids_filter.
Qed.

Lemma run_distinct_uuids (cs : list Call) (st : Manager) :
  distinct_uuids st → distinct_uuids (run localUuid cs st).
Proof.
  revert st. induction cs as [|c cs IH]; intros st H; [done|].
  simpl. apply IH. by apply call_distinct_uuids.
Qed.

Lemma empty_distinct_uuids : distinct_uuids empty.
Proof. split; apply NoDup_nil_2. Qed.

End Steps.

(** ** The claims about the source/sink registry *)

(** C3.  After any finite sequence of [addSource] and [addSink] calls
    (and of [removeSource] and [removeSink] calls among them) on a new
    manager, no two positions of [sources] hold the same non-empty uuid,
    and no two positions of [sinks] do; the two collections are looked at
    separately. *)
Theorem addSource_addSink_uuids_distinct (localUuid : string)
    (cs : list Call) :
  let st := run localUuid cs empty in
  (∀ i j s1 s2,
     sources st !! i = Some s1 → sources st !! j = Some s2 →
     truthy (source_uuid s1) = true → source_uuid s1 = source_uuid s2 →
     i = j)
  ∧ (∀ i j k1 k2,
       sinks st !! i = Some k1 → sinks st !! j = Some k2 →
       truthy (sink_uuid k1) = true → sink_uuid k1 = sink_uuid k2 →
       i = j).
Proof.
  intros st.
  destruct (run_distinct_uuids localUuid cs empty empty_distinct_uuids)
    as [Hs Hk].
  split; intros i j x y Hi Hj Ht Hxy.
  - by eapply (NoDup_uuids_lookup source_uuid).
  - by eapply (NoDup_uuids_lookup sink_uuid).
Qed.

(** C4, as the code has it.  In a manager reached by calls from a new
    one, when the uuid of the descriptor is not the empty string and is
    the uuid of an entity [s] of the collection,
    [addSource] (resp. [addSink]) returns normally, leaves the collection
    at the same length with [s] replaced where it stood by
    [updateInfo] of [s], and that entity is then the only one with this
    uuid; it has the descriptor's name and type, and the descriptor's
    [peerUuid] (and device name) when the descriptor defines them. *)
Theorem addSource_addSink_same_uuid_updates (localUuid : string)
    (cs : list Call) (u : string) :
  let st := run localUuid cs empty in
  u ≠ "" →
  (∀ d s, sd_uuid d = Some u → s ∈ sources st → source_uuid s = Some u →
     ∃ i, sources st !! i = Some s ∧
       let s' := source_updateInfo s d in
       let st' := source_updated localUuid i s' st in
       addSource localUuid d st = (Normal tt, st')
       ∧ sources st' = <[i := s']> (sources st)
       ∧ length (sources st') = length (sources st)
       ∧ filter (λ x, source_uuid x = Some u) (sources st') = [s']
       ∧ source_name s' = sd_name d ∧ source_type s' = sd_type d
       ∧ (∀ p, sd_peerUuid d = Some p → source_peerUuid s' = Some p))
  ∧ (∀ d k, kd_uuid d = Some u → k ∈ sinks st → sink_uuid k = Some u →
       ∃ i, sinks st !! i = Some k ∧
         let k' := sink_updateInfo k d in
         let st' := sink_updated localUuid i k' st in
         addSink localUuid d st = (Normal tt, st')
         ∧ sinks st' = <[i := k']> (sinks st)
         ∧ length (sinks st') = length (sinks st)
         ∧ filter (λ x, sink_uuid x = Some u) (sinks st') = [k']
         ∧ sink_name k' = kd_name d ∧ sink_type k' = kd_type d
         ∧ (∀ p, kd_peerUuid d = Some p → sink_peerUuid k' = Some p)
         ∧ (∀ n, kd_deviceName d = Some n → sink_deviceName k' = Some n)).
Proof.
  intros st Hne.
  destruct (run_distinct_uuids localUuid cs empty empty_distinct_uuids)
    as [Hs Hk].
  fold st in Hs, Hk. split.
  - intros d s Hd Hin Hsu.
    destruct (list_find_elem_of (λ x, source_uuid x = Some u) _ _ Hin Hsu)
      as [[i s0] Hfind].
    pose proof Hfind as (Hi & Hs0 & _)%list_find_Some.
    apply list_elem_of_lookup in Hin as [j Hj].
    assert (i = j) as <-.
    { eapply (NoDup_uuids_lookup source_uuid); [done..| |congruence].
      rewrite Hs0. by apply truthy_Some_2. }
    assert (s0 = s) as -> by congruence.
    exists i. split; [done|]. intros s' st'.
    assert (Hs' : source_uuid s' = Some u) by (simpl; by rewrite Hd).
    split; [|split; [done|split; [apply length_insert|split]]].
    + apply addSource_existing, and_then_Some. eauto.
    + eapply (NoDup_uuids_filter_singleton source_uuid _ i); [|..|done|done].
      * simpl. rewrite (fmap_insert_same_uuid _ _ _ s); [done..|congruence].
      * simpl. apply list_lookup_insert_eq. by eapply lookup_lt_Some.
    + simpl. split; [done|split; [done|]]. by intros p ->.
  - intros d k Hd Hin Hsu.
    destruct (list_find_elem_of (λ x, sink_uuid x = Some u) _ _ Hin Hsu)
      as [[i k0] Hfind].
    pose proof Hfind as (Hi & Hk0 & _)%list_find_Some.
    apply list_elem_of_lookup in Hin as [j Hj].
    assert (i = j) as <-.
    { eapply (NoDup_uuids_lookup sink_uuid); [done..| |congruence].
      rewrite Hk0. by apply truthy_Some_2. }
    assert (k0 = k) as -> by congruence.
    exists i. split; [done|]. intros k' st'.
    assert (Hk' : sink_uuid k' = Some u) by (simpl; by rewrite Hd).
    split; [|split; [done|split; [apply length_insert|split]]].
    + apply addSink_existing, and_then_Some. eauto.
    + eapply (NoDup_uuids_filter_singleton sink_uuid _ i); [|..|done|done].
      * simpl. rewrite (fmap_insert_same_uuid _ _ _ k); [done..|congruence].
      * simpl. apply list_lookup_insert_eq. by eapply lookup_lt_Some.
    + simpl. split; [done|split; [done|split]]; by intros p ->.
Qed.

Lemma no_source_with_uuid (d : SourceDescriptor) (st : Manager) :
  (∀ u, sd_uuid d = Some u → u ≠ "" →
        ∀ s, s ∈ sources st → source_uuid s ≠ Some u) →
  and_then (sd_uuid d) (λ u, getSourceByUuid u st) = None.
Proof.
  intros H. apply and_then_None. intros u Hu Hne.
  apply list_find_None, Forall_forall. by apply H.
Qed.

Lemma no_sink_with_uuid (d : SinkDescriptor) (st : Manager) :
  (∀ u, kd_uuid d = Some u → u ≠ "" →
        ∀ k, k ∈ sinks st → sink_uuid k ≠ Some u) →
  and_then (kd_uuid d) (λ u, getSinkByUuid u st) = None.
Proof.
  intros H. apply and_then_None. intros u Hu Hne.
  apply list_find_None, Forall_forall. by apply H.
Qed.

(** C5, as the code has it.  For a descriptor of type ['rtaudio'] whose
    [peerUuid] is the local peer's uuid and whose uuid, if it has a
    non-empty one, is the uuid of no sink: when some [RtAudioSink] of the
    collection has the descriptor's device name, [addSink] returns
    normally, appends nothing, and the first such sink is replaced where it
    stands by its [updateInfo]. *)
Theorem addSink_same_device_updates (localUuid : string) (st : Manager)
    (d : SinkDescriptor) (k : AudioSink) :
  kd_type d = "rtaudio" →
  kd_peerUuid d = Some localUuid →
  (∀ u, kd_uuid d = Some u → u ≠ "" →
        ∀ k', k' ∈ sinks st → sink_uuid k' ≠ Some u) →
  k ∈ sinks st → sink_class k = RtAudioSink →
  sink_deviceName k = kd_deviceName d →
  ∃ i k0,
    sinks st !! i = Some k0
    ∧ sink_class k0 = RtAudioSink
    ∧ sink_deviceName k0 = kd_deviceName d
    ∧ (∀ j k', sinks st !! j = Some k' → j < i →
         ¬ (sink_class k' = RtAudioSink
            ∧ sink_deviceName k' = kd_deviceName d))
    ∧ let st' := sink_updated localUuid i (sink_updateInfo k0 d) st in
      addSink localUuid d st = (Normal tt, st')
      ∧ sinks st' = <[i := sink_updateInfo k0 d]> (sinks st)
      ∧ length (sinks st') = length (sinks st)
      ∧ sources st' = sources st.
Proof.
  intros Ht Hp Hu Hin Hc Hn.
  destruct (list_find_elem_of
              (λ x, sink_class x = RtAudioSink
                    ∧ sink_deviceName x = kd_deviceName d) _ _ Hin)
    as [[i k0] Hfind]; [done|].
  pose proof Hfind as (Hi & [Hc0 Hn0] & Hfirst)%list_find_Some.
  exists i, k0. repeat (split; [done|]). intros st'.
  split; [|split; [done|split; [apply length_insert|done]]].
  apply addSink_sameDevice; [by apply no_sink_with_uuid|].
  unfold sameDevice. rewrite Ht, Hp. simpl.
  by rewrite bool_decide_eq_true_2.
Qed.

(** C8.  [removeSource(uuid)] and [removeSink(uuid)] never throw.  What
    they leave is the collection without the entities of that uuid, the
    rest of the manager untouched; when no entity has that uuid the
    manager is left as it was. *)
Theorem removeSource_removeSink_spec (uuid : string) (st : Manager) :
  (removeSource uuid st).1 = Normal tt
  ∧ (removeSink uuid st).1 = Normal tt
  ∧ (removeSource uuid st).2
    = {| sources := filter (λ s, source_uuid s ≠ Some uuid) (sources st);
         sinks := sinks st; emitted := emitted st; config := config st |}
  ∧ (removeSink uuid st).2
    = {| sources := sources st;
         sinks := filter (λ k, sink_uuid k ≠ Some uuid) (sinks st);
         emitted := emitted st; config := config st |}
  ∧ (∀ s, s ∈ sources (removeSource uuid st).2
          ↔ s ∈ sources st ∧ source_uuid s ≠ Some uuid)
  ∧ (∀ k, k ∈ sinks (removeSink uuid st).2
          ↔ k ∈ sinks st ∧ sink_uuid k ≠ Some uuid)
  ∧ ((∀ s, s ∈ sources st → source_uuid s ≠ Some uuid) →
     (removeSource uuid st).2 = st)
  ∧ ((∀ k, k ∈ sinks st → sink_uuid k ≠ Some uuid) →
     (removeSink uuid st).2 = st).
Proof.
  rewrite removeSource_run, removeSink_run. simpl.
  repeat (split; [done|]).
  split; [|split; [|split]].
  - intros s. rewrite list_elem_of_filter. tauto.
  - intros k. rewrite list_elem_of_filter. tauto.
  - intros H. rewrite (filter_uuid_id source_uuid) by done.
    apply Manager_eta.
  - intros H. rewrite (filter_uuid_id sink_uuid) by done.
    apply Manager_eta.
Qed.

(** C9, as the code has it.  For a local descriptor ([peerUuid] falsy or
    the local peer's uuid) whose type is none of the recognised ones and
    whose uuid, if it has a non-empty one, is the uuid of no entity of the
    collection, [addSource] (resp. [addSink]) throws
    [Error("Unknown source type ...")] (resp. ["Unknown sink type ..."]) and
    leaves the manager as it was. *)
Theorem addSource_addSink_unknown_type_throws (localUuid : string)
    (st : Manager) :
  (∀ d, isLocal localUuid (sd_peerUuid d) = true →
        sd_type d ≠ "librespot" → sd_type d ≠ "null" →
        (∀ u, sd_uuid d = Some u → u ≠ "" →
              ∀ s, s ∈ sources st → source_uuid s ≠ Some u) →
        addSource localUuid d st
        = (Throw (Error ("Unknown source type " +:+ sd_type d)), st))
  ∧ (∀ d, isLocal localUuid (kd_peerUuid d) = true →
          kd_type d ≠ "rtaudio" → kd_type d ≠ "null" →
          (∀ u, kd_uuid d = Some u → u ≠ "" →
                ∀ k, k ∈ sinks st → sink_uuid k ≠ Some u) →
          addSink localUuid d st
          = (Throw (Error ("Unknown sink type " +:+ kd_type d)), st)).
Proof.
  split.
  - intros d Hl Ht1 Ht2 Hu.
    rewrite addSource_absent by (by apply no_source_with_uuid).
    rewrite Hl. simpl.
    apply String.eqb_neq in Ht1, Ht2. by rewrite Ht1, Ht2.
  - intros d Hl Ht1 Ht2 Hu.
    apply String.eqb_neq in Ht1, Ht2.
    rewrite addSink_absent.
    + rewrite Hl. simpl. by rewrite Ht1, Ht2.
    + by apply no_sink_with_uuid.
    + unfold sameDevice. by rewrite Ht1.
Qed.

Lemma isLocal_remote (localUuid : string) (peerUuid : option string) :
  truthy peerUuid = true → peerUuid ≠ Some localUuid →
  isLocal localUuid peerUuid = false.
Proof.
  intros Ht Hne. unfold isLocal. rewrite Ht. simpl.
  by apply bool_decide_eq_false_2.
Qed.

(** The calls of the configuration writer that a call of [addSource] adds
    are for local sources of the collection. *)
Lemma addSource_config (localUuid : string) (d : SourceDescriptor)
    (st : Manager) :
  ∃ ws, config (addSource localUuid d st).2 = config st ++ ws
    ∧ ∀ w, w ∈ ws →
        ∃ s, s ∈ sources (addSource localUuid d st).2
          ∧ source_local localUuid s = true
          ∧ w = config_sources (source_toDescriptor s).
Proof.
  assert (Hpush : ∀ s, ∃ ws,
    config (source_pushed localUuid s st) = config st ++ ws
    ∧ ∀ w, w ∈ ws → ∃ s', s' ∈ sources (source_pushed localUuid s st)
        ∧ source_local localUuid s' = true
        ∧ w = config_sources (source_toDescriptor s')).
  { intros s. eexists. split; [done|]. intros w Hw.
    destruct (source_local localUuid s) eqn:E; [|by apply elem_of_nil in Hw].
    apply list_elem_of_singleton in Hw as ->. exists s.
    split; [|done]. simpl. apply elem_of_app. right. by left. }
  destruct (and_then (sd_uuid d) (λ u, getSourceByUuid u st))
    as [[i s]|] eqn:E.
  - rewrite (addSource_existing _ _ _ _ _ E). eexists. split; [done|].
    intros w Hw. set (s' := source_updateInfo s d) in *.
    destruct (source_local localUuid s') eqn:El; [|by apply elem_of_nil in Hw].
    apply list_elem_of_singleton in Hw as ->. exists s'.
    split; [|done]. simpl. apply list_elem_of_insert.
    apply and_then_Some in E as (u & _ & _ & (Hi & _)%list_find_Some).
    by eapply lookup_lt_Some.
  - rewrite (addSource_absent _ _ _ E).
    repeat case_match; simpl; try apply Hpush.
    exists []. split; [by rewrite app_nil_r|]. by intros w Hw%elem_of_nil.
Qed.

Lemma addSink_config (localUuid : string) (d : SinkDescriptor)
    (st : Manager) :
  ∃ ws, config (addSink localUuid d st).2 = config st ++ ws
    ∧ ∀ w, w ∈ ws →
        ∃ k, k ∈ sinks (addSink localUuid d st).2
          ∧ sink_local localUuid k = true
          ∧ w = config_sinks (sink_toDescriptor k).
Proof.
  assert (Hpush : ∀ k, ∃ ws,
    config (sink_pushed localUuid k st) = config st ++ ws
    ∧ ∀ w, w ∈ ws → ∃ k', k' ∈ sinks (sink_pushed localUuid k st)
        ∧ sink_local localUuid k' = true
        ∧ w = config_sinks (sink_toDescriptor k')).
  { intros k. eexists. split; [done|]. intros w Hw.
    destruct (sink_local localUuid k) eqn:E; [|by apply elem_of_nil in Hw].
    apply list_elem_of_singleton in Hw as ->. exists k.
    split; [|done]. simpl. apply elem_of_app. right. by left. }
  assert (Hupd : ∀ i k, sinks st !! i = Some k → ∃ ws,
    config (sink_updated localUuid i (sink_updateInfo k d) st) = config st ++ ws
    ∧ ∀ w, w ∈ ws →
        ∃ k', k' ∈ sinks (sink_updated localUuid i (sink_updateInfo k d) st)
        ∧ sink_local localUuid k' = true
        ∧ w = config_sinks (sink_toDescriptor k')).
  { intros i k Hi. eexists. split; [done|].
    intros w Hw. set (k' := sink_updateInfo k d) in *.
    destruct (sink_local localUuid k') eqn:El; [|by apply elem_of_nil in Hw].
    apply list_elem_of_singleton in Hw as ->. exists k'.
    split; [|done]. simpl. apply list_elem_of_insert.
    by eapply lookup_lt_Some. }
  destruct (and_then (kd_uuid d) (λ u, getSinkByUuid u st))
    as [[i k]|] eqn:E.
  - rewrite (addSink_existing _ _ _ _ _ E). apply Hupd.
    by apply and_then_Some in E as (u & _ & _ & (Hi & _)%list_find_Some).
  - destruct (sameDevice localUuid d st) as [[i k]|] eqn:E'.
    + rewrite (addSink_sameDevice _ _ _ _ _ E E'). apply Hupd.
      unfold sameDevice in E'. case_match; [|done].
      by apply list_find_Some in E' as (Hi & _).
    + rewrite (addSink_absent _ _ _ E E').
      repeat case_match; simpl; try apply Hpush.
      exists []. split; [by rewrite app_nil_r|]. by intros w Hw%elem_of_nil.
Qed.

(** C10.  The two listeners write to the configuration only for an entity
    whose [local] is true.  Hence every write that a call of [addSource]
    or [addSink] adds to the configuration is the descriptor of a local
    entity of the collection; a call with a remote descriptor ([peerUuid]
    non-empty and not the local peer's uuid), whether it creates an entity
    or updates one, adds none; and a call that updates an entity which is
    remote once updated adds none. *)
Theorem config_written_for_local_entities_only (localUuid : string)
    (st : Manager) :
  (∀ s, source_local localUuid s = false →
        updateConfigForSource localUuid s st = (Normal tt, st))
  ∧ (∀ k, sink_local localUuid k = false →
          updateConfigForSink localUuid k st = (Normal tt, st))
  ∧ (∀ d, ∃ ws, config (addSource localUuid d st).2 = config st ++ ws
        ∧ ∀ w, w ∈ ws →
            ∃ s, s ∈ sources (addSource localUuid d st).2
              ∧ source_local localUuid s = true
              ∧ w = config_sources (source_toDescriptor s))
  ∧ (∀ d, ∃ ws, config (addSink localUuid d st).2 = config st ++ ws
        ∧ ∀ w, w ∈ ws →
            ∃ k, k ∈ sinks (addSink localUuid d st).2
              ∧ sink_local localUuid k = true
              ∧ w = config_sinks (sink_toDescriptor k))
  ∧ (∀ d, truthy (sd_peerUuid d) = true → sd_peerUuid d ≠ Some localUuid →
          config (addSource localUuid d st).2 = config st)
  ∧ (∀ d, truthy (kd_peerUuid d) = true → kd_peerUuid d ≠ Some localUuid →
          config (addSink localUuid d st).2 = config st)
  ∧ (∀ d u i s, sd_uuid d = Some u → u ≠ "" →
        getSourceByUuid u st = Some (i, s) →
        source_local localUuid (source_updateInfo s d) = false →
        config (addSource localUuid d st).2 = config st)
  ∧ (∀ d u i k, kd_uuid d = Some u → u ≠ "" →
        getSinkByUuid u st = Some (i, k) →
        sink_local localUuid (sink_updateInfo k d) = false →
        config (addSink localUuid d st).2 = config st).
Proof.
  split; [|split; [|split; [|split; [|split; [|split; [|split]]]]]];
    [..|intros d u i s Hu Hne Hfind Hl|intros d u i k Hu Hne Hfind Hl];
    [| | | | | |
     rewrite (addSource_existing localUuid d st i s)
       by (apply and_then_Some; eauto);
     simpl; rewrite Hl; apply app_nil_r
    |rewrite (addSink_existing localUuid d st i k)
       by (apply and_then_Some; eauto);
     simpl; rewrite Hl; apply app_nil_r].
  - intros s Hs. unfold updateConfigForSource. by rewrite Hs.
  - intros k Hk. unfold updateConfigForSink. by rewrite Hk.
  - intros d. apply addSource_config.
  - intros d. apply addSink_config.
  - intros d Ht Hne. pose proof (isLocal_remote _ _ Ht Hne) as Hr.
    apply truthy_Some in Ht as (p & Hp & _).
    destruct (and_then (sd_uuid d) (λ u, getSourceByUuid u st))
      as [[i s]|] eqn:E.
    + rewrite (addSource_existing _ _ _ _ _ E). simpl.
      unfold source_local. simpl. rewrite Hp in *. simpl.
      rewrite Hr. apply app_nil_r.
    + rewrite (addSource_absent _ _ _ E), Hr. simpl.
      unfold source_local. simpl. rewrite Hr. apply app_nil_r.
  - intros d Ht Hne. pose proof (isLocal_remote _ _ Ht Hne) as Hr.
    apply truthy_Some in Ht as (p & Hp & _).
    destruct (and_then (kd_uuid d) (λ u, getSinkByUuid u st))
      as [[i k]|] eqn:E.
    + rewrite (addSink_existing _ _ _ _ _ E). simpl.
      unfold sink_local. simpl. rewrite Hp in *. simpl.
      rewrite Hr. apply app_nil_r.
    + assert (sameDevice localUuid d st = None) as E'.
      { unfold sameDevice. rewrite (bool_decide_eq_false_2 _ Hne).
        by rewrite andb_false_r. }
      rewrite (addSink_absent _ _ _ E E'), Hr. simpl.
      unfold sink_local. simpl. rewrite Hr. apply app_nil_r.
Qed.

(** ** The claims at concrete managers *)

Example scanned_sinks :
  sinks scanned = [new_sink RtAudioSink speakers_detected]
  ∧ config scanned = [config_sinks speakers_detected].
Proof. by vm_compute. Qed.

(** A second scan changes nothing in the collection. *)
Example scanned_twice :
  sinks (autodetectDevices uuid_L [microphone; speakers] scanned).2 = sinks scanned.
Proof. by vm_compute. Qed.

(** Sources and sinks are two namespaces: [s1] is in both. *)
Example with_s1_both :
  source_uuid <$> sources with_s1 = [Some "s1"]
  ∧ sink_uuid <$> sinks with_s1 = [Some "s1"].
Proof. by vm_compute. Qed.

(** Section 8, scenario 9: the descriptor loaded from the configuration,
    then the same one from the network. *)
Example addFromConfig_then_gossip :
  sinks (addSink uuid_L null_k1 (addFromConfig uuid_L [] [null_k1] empty).2).2
  = [new_sink NullSink null_k1].
Proof. by vm_compute. Qed.

Lemma addSource_addSink_uuids_distinct_witness :
  sources with_s1 !! 0 = Some (new_source NullSource null_s1)
  ∧ truthy (source_uuid (new_source NullSource null_s1)) = true
  ∧ 0 = 0.
Proof.
  split; [reflexivity|]. split; [reflexivity|].
  apply (proj1 (addSource_addSink_uuids_distinct uuid_L
           [call_addSource null_s1; call_addSink null_k1])
           0 0 (new_source NullSource null_s1) (new_source NullSource null_s1));
    reflexivity.
Defined.

Lemma addSource_addSink_same_uuid_updates_witness :
  ∃ i, sources with_s1 !! i = Some (new_source NullSource null_s1)
    ∧ addSource uuid_L null_s1_renamed with_s1
      = (Normal tt,
         source_updated uuid_L i
           (source_updateInfo (new_source NullSource null_s1) null_s1_renamed)
           with_s1)
    ∧ filter (λ x, source_uuid x = Some "s1")
        (sources (addSource uuid_L null_s1_renamed with_s1).2)
      = [{| source_class := NullSource; source_uuid := Some "s1";
            source_name := "N again"; source_type := "null";
            source_peerUuid := Some "L" |}].
Proof.
  assert (Hne : "s1" ≠ "") by discriminate.
  destruct (proj1 (addSource_addSink_same_uuid_updates uuid_L
              [call_addSource null_s1; call_addSink null_k1] "s1" Hne)
              null_s1_renamed (new_source NullSource null_s1))
    as (i & Hi & Hadd & _ & _ & Hone & _).
  - reflexivity.
  - vm_compute. left.
  - reflexivity.
  - exists i. split; [exact Hi|]. split; [exact Hadd|].
    fold with_s1 in Hadd. rewrite Hadd. exact Hone.
Defined.

(** C4 as stated fails for the empty uuid: [descriptor.uuid &&] is then
    falsy, the collection is not searched, and a second entity with that
    uuid is pushed. *)
Lemma addSource_empty_uuid_appends :
  sources with_no_uuid = [new_source NullSource null_no_uuid]
  ∧ source_uuid (new_source NullSource null_no_uuid)
    = sd_uuid null_no_uuid_renamed
  ∧ (addSource uuid_L null_no_uuid_renamed with_no_uuid).1 = Normal tt
  ∧ sources (addSource uuid_L null_no_uuid_renamed with_no_uuid).2
    = [new_source NullSource null_no_uuid;
       new_source NullSource null_no_uuid_renamed]
  ∧ length (filter (λ x, source_uuid x = Some "")
              (sources (addSource uuid_L null_no_uuid_renamed
                          with_no_uuid).2))
    = 2.
Proof. by vm_compute. Qed.

Lemma addSink_same_device_updates_witness :
  ∃ i k0, sinks scanned !! i = Some k0
    ∧ addSink uuid_L speakers_detected scanned
      = (Normal tt,
         sink_updated uuid_L i (sink_updateInfo k0 speakers_detected) scanned)
    ∧ length (sinks (addSink uuid_L speakers_detected scanned).2) = 1.
Proof.
  destruct (addSink_same_device_updates uuid_L scanned speakers_detected
              (new_sink RtAudioSink speakers_detected))
    as (i & k0 & Hi & _ & _ & _ & Hadd & _ & Hlen & _).
  - reflexivity.
  - reflexivity.
  - intros u Hu. discriminate Hu.
  - vm_compute. left.
  - reflexivity.
  - reflexivity.
  - exists i, k0. split; [exact Hi|]. split; [exact Hadd|].
    rewrite Hadd. exact Hlen.
Defined.

(** C5 as stated fails for a local descriptor that has no [peerUuid]: the
    search by device name is made only when [peerUuid] is the local
    peer's uuid, and the scanned device gets a second sink. *)
Lemma addSink_local_device_without_peerUuid_appends :
  isLocal uuid_L (kd_peerUuid speakers_no_peer) = true
  ∧ kd_type speakers_no_peer = "rtaudio"
  ∧ kd_uuid speakers_no_peer = None
  ∧ sinks scanned = [new_sink RtAudioSink speakers_detected]
  ∧ sink_local uuid_L (new_sink RtAudioSink speakers_detected) = true
  ∧ sink_deviceName (new_sink RtAudioSink speakers_detected)
    = kd_deviceName speakers_no_peer
  ∧ (addSink uuid_L speakers_no_peer scanned).1 = Normal tt
  ∧ sinks (addSink uuid_L speakers_no_peer scanned).2
    = [new_sink RtAudioSink speakers_detected;
       new_sink RtAudioSink speakers_no_peer]
  ∧ length (sinks (addSink uuid_L speakers_no_peer scanned).2)
    ≠ length (sinks scanned).
Proof. vm_compute. repeat (split; [reflexivity|]). discriminate. Qed.

Lemma removeSource_removeSink_spec_witness :
  (removeSource "s2" with_s1).2 = with_s1
  ∧ (removeSink "s2" with_s1).2 = with_s1
  ∧ sources (removeSource "s1" with_s1).2 = []
  ∧ sinks (removeSink "s1" with_s1).2 = [].
Proof.
  destruct (removeSource_removeSink_spec "s2" with_s1)
    as (_ & _ & _ & _ & _ & _ & Hs & Hk).
  destruct (removeSource_removeSink_spec "s1" with_s1)
    as (_ & _ & Hs1 & Hk1 & _).
  split; [|split; [|split]].
  - apply Hs. intros s Hin. vm_compute in Hin.
    apply list_elem_of_singleton in Hin. rewrite Hin. discriminate.
  - apply Hk. intros k Hin. vm_compute in Hin.
    apply list_elem_of_singleton in Hin. rewrite Hin. discriminate.
  - rewrite Hs1. reflexivity.
  - rewrite Hk1. reflexivity.
Defined.

Lemma addSource_addSink_unknown_type_throws_witness :
  addSource uuid_L bogus_s2 with_s1
  = (Throw (Error "Unknown source type bogus"), with_s1).
Proof.
  apply (proj1 (addSource_addSink_unknown_type_throws uuid_L with_s1) bogus_s2).
  - reflexivity.
  - discriminate.
  - discriminate.
  - intros u [= <-] _ s Hin. vm_compute in Hin.
    apply list_elem_of_singleton in Hin. rewrite Hin. discriminate.
Defined.

(** C9 as stated fails for a descriptor whose uuid is that of an entity:
    the call is an update, it returns normally whatever the type is, and
    the collection is changed. *)
Lemma addSource_unknown_type_known_uuid_returns :
  isLocal uuid_L (sd_peerUuid bogus_s1) = true
  ∧ sd_type bogus_s1 ≠ "librespot" ∧ sd_type bogus_s1 ≠ "null"
  ∧ (addSource uuid_L bogus_s1 with_s1).1 = Normal tt
  ∧ sources (addSource uuid_L bogus_s1 with_s1).2
    = [{| source_class := NullSource; source_uuid := Some "s1";
          source_name := "N"; source_type := "bogus";
          source_peerUuid := None |}]
  ∧ sources (addSource uuid_L bogus_s1 with_s1).2 ≠ sources with_s1.
Proof.
  vm_compute. split; [reflexivity|].
  split; [discriminate|]. split; [discriminate|].
  split; [reflexivity|]. split; [reflexivity|]. discriminate.
Qed.

Lemma config_written_for_local_entities_only_witness :
  config (addSource uuid_L remote_s3 with_s1).2 = config with_s1
  ∧ updateConfigForSource uuid_L (new_source RemoteSource remote_s3) with_s1
    = (Normal tt, with_s1).
Proof.
  destruct (config_written_for_local_entities_only uuid_L with_s1)
    as (Hsrc & _ & _ & _ & Hremote & _).
  split.
  - apply Hremote; [reflexivity|discriminate].
  - apply Hsrc. reflexivity.
Defined.

(** * Properties of the peer registry *)

Lemma append_assoc (a b c : string) : (a +:+ b) +:+ c = a +:+ b +:+ c.
Proof.
  induction a as [|x a IH]; [done|].
  change (String x ((a +:+ b) +:+ c) = String x (a +:+ b +:+ c)).
  by rewrite IH.
Qed.

Lemma append_empty_r (a : string) : a +:+ "" = a.
Proof.
  induction a as [|x a IH]; [done|].
  change (String x (a +:+ "") = String x a). by rewrite IH.
Qed.

Lemma versionMismatch_names_both (own other : string) :
  occurs_in own (versionMismatch own other)
  ∧ occurs_in other (versionMismatch own other).
Proof.
  unfold versionMismatch.
  set (head := "Different version of Soundsync, please check each client is on the same version.").
  split.
  - exists (head +:+ LF +:+ "Own version: "),
      (LF +:+ "Other peer version: " +:+ other).
    by rewrite !append_assoc.
  - exists (head +:+ LF +:+ "Own version: " +:+ own
            +:+ LF +:+ "Other peer version: "), "".
    by rewrite !append_assoc, append_empty_r.
Qed.

Section Registry.

Variable getLocalPeer : Peer.
Variable SOUNDSYNC_VERSION : string.

Local Abbreviation connect :=
  (connect_webrtc_peer getLocalPeer SOUNDSYNC_VERSION).
Local Abbreviation step' := (step getLocalPeer SOUNDSYNC_VERSION).
Local Abbreviation steps' := (steps getLocalPeer SOUNDSYNC_VERSION).

(** ** No operation deletes a key *)

Lemma connect_keeps_keys (body : ConnectRequest) (handshake : Settled string)
    (st : PeersManager) (u : string) :
  is_Some (peers st !! u) → is_Some (peers (connect body handshake st).2 !! u).
Proof.
  intros H. unfold connect_webrtc_peer.
  case_bool_decide; [done|].
  assert (∀ st1, is_Some (peers st1 !! u) →
    is_Some (peers (log (handlePeerConnectionMessage
       (new_WebrtcPeer (req_uuid body) (req_name body) (req_ip body)
          (req_instanceUuid body)) (req_description body))
       (assign (req_uuid body)
          (new_WebrtcPeer (req_uuid body) (req_name body) (req_ip body)
             (req_instanceUuid body)) st1)) !! u)) as Hassign.
  { intros st1 H1. simpl. apply lookup_insert_is_Some'. by right. }
  destruct handshake; simpl; repeat case_match; simpl;
    apply lookup_insert_is_Some'; right; try done;
    apply lookup_insert_is_Some'; by right.
Qed.

Lemma connect_keeps_others (body : ConnectRequest)
    (handshake : Settled string) (st : PeersManager) (u : string) :
  req_uuid body ≠ u →
  peers (connect body handshake st).2 !! u = peers st !! u.
Proof.
  intros Hne. unfold connect_webrtc_peer.
  case_bool_decide; [done|].
  destruct handshake; simpl; repeat case_match; simpl;
    by rewrite ?lookup_insert_ne.
Qed.

Lemma broadcast_peers (net : Peer → Completion (Settled bool))
    (message : ControllerMessage) (ignore : list string)
    (st : PeersManager) :
  peers (broadcast net message ignore st).2 = peers st.
Proof. done. Qed.

Lemma step_keeps_keys (o : Op) (st : PeersManager) (u : string) :
  is_Some (peers st !! u) → is_Some (peers (step' o st) !! u).
Proof.
  intros H.
  destruct o as [body handshake|host uuid force outcome|uuid autoConnect
                |net message ignore|net|type|settles peer];
    [| | |exact H..].
  - by apply connect_keeps_keys.
  - cbn [step joinPeerWithHttpApi snd log assign peers].
    apply lookup_insert_is_Some'. by right.
  - cbn [step]. unfold getPeerByUuid.
    destruct (peers st !! uuid) eqn:E; [done|].
    destruct autoConnect; cbn [snd log assign peers];
      apply lookup_insert_is_Some'; by right.
Qed.

Lemma step_keeps_others (o : Op) (st : PeersManager) (u : string) (p : Peer) :
  names o ≠ Some u →
  peers st !! u = Some p → peers (step' o st) !! u = Some p.
Proof.
  intros Hn H.
  destruct o as [body handshake|host uuid force outcome|uuid autoConnect
                |net message ignore|net|type|settles peer];
    [| | |exact H..].
  - cbn [step]. rewrite connect_keeps_others; [done|].
    intros Heq. apply Hn. cbn [names]. by rewrite Heq.
  - cbn [step joinPeerWithHttpApi snd log assign peers].
    rewrite lookup_insert_ne; [done|].
    intros Heq. apply Hn. cbn [names]. by rewrite <-Heq.
  - cbn [step]. unfold getPeerByUuid.
    destruct (peers st !! uuid) eqn:E; [done|].
    assert (uuid ≠ u) by (intros ->; by rewrite H in E).
    destruct autoConnect; cbn [snd log assign peers];
      by rewrite lookup_insert_ne.
Qed.

Lemma steps_keeps_keys (os : list Op) (st : PeersManager) (u : string) :
  is_Some (peers st !! u) → is_Some (peers (steps' os st) !! u).
Proof.
  revert st. induction os as [|o os IH]; intros st H; [done|].
  simpl. apply IH. by apply step_keeps_keys.
Qed.

Lemma steps_keeps_others (os : list Op) (st : PeersManager) (u : string)
    (p : Peer) :
  Forall (λ o, names o ≠ Some u) os →
  peers st !! u = Some p → peers (steps' os st) !! u = Some p.
Proof.
  revert st. induction os as [|o os IH]; intros st Hos H; [done|].
  apply Forall_cons in Hos as [Ho Hos].
  simpl. apply IH; [done|]. by apply step_keeps_others.
Qed.

(** ** The order in which the registry is visited *)

Lemma filter_all {A} (P : A → Prop) `{!∀ x, Decision (P x)} (l : list A) :
  Forall P l → filter P l = l.
Proof.
  induction 1 as [|x l Hx _ IH]; [done|].
  by rewrite filter_cons, decide_True, IH.
Qed.

Lemma filter_none {A} (P : A → Prop) `{!∀ x, Decision (P x)} (l : list A) :
  Forall (λ x, ¬ P x) l → filter P l = [].
Proof.
  induction 1 as [|x l Hx _ IH]; [done|].
  by rewrite filter_cons, decide_False, IH.
Qed.

Lemma visiting_order_Permutation (created : list string) :
  visiting_order created ≡ₚ created.
Proof.
  unfold visiting_order. rewrite merge_sort_Permutation.
  apply filter_app_complement.
Qed.

(** The keys visited are the keys of the registry, each once. *)
Lemma own_keys_spec (st : PeersManager) (key : string) :
  key ∈ own_keys st ↔ is_Some (peers st !! key).
Proof.
  unfold own_keys. rewrite visiting_order_Permutation.
  rewrite elem_of_app, elem_of_reverse, elem_of_remove_dups, elem_of_reverse.
  rewrite !list_elem_of_filter, list_elem_of_fmap. split.
  - intros [[H _]|[_ ([k p] & -> & H%elem_of_map_to_list)]]; [done|].
    simpl. by rewrite H.
  - intros [p Hp]. destruct (decide (key ∈ order st)) as [Hin|Hin].
    + left. split; [by rewrite Hp|done].
    + right. split; [done|]. exists (key, p). split; [done|].
      by apply elem_of_map_to_list.
Qed.

Lemma own_keys_NoDup (st : PeersManager) : NoDup (own_keys st).
Proof.
  unfold own_keys. rewrite visiting_order_Permutation.
  apply NoDup_app. split; [|split].
  - rewrite reverse_Permutation. apply NoDup_remove_dups.
  - intros key.
    rewrite elem_of_reverse, elem_of_remove_dups, elem_of_reverse.
    rewrite !list_elem_of_filter. by intros [_ Hin] [Hout _].
  - apply NoDup_filter, NoDup_fst_map_to_list.
Qed.

Lemma omap_lookup_fst {A B} (f : A → option B) (l : list (A * B)) :
  Forall (λ kv, f kv.1 = Some kv.2) l → omap f (l.*1) = l.*2.
Proof.
  induction 1 as [|[k v] l Hkv _ IH]; [done|].
  rewrite !fmap_cons. simpl in *. rewrite Hkv. by f_equal.
Qed.

(** The peers visited are the values of the registry, one for each key. *)
Lemma peers_values_Permutation (st : PeersManager) :
  peers_values st ≡ₚ (map_to_list (peers st)).*2.
Proof.
  unfold peers_values.
  transitivity (omap (λ key, peers st !! key) (map_to_list (peers st)).*1).
  - apply omap_Permutation.
    apply NoDup_Permutation;
      [apply own_keys_NoDup|apply NoDup_fst_map_to_list|].
    intros key. rewrite own_keys_spec, list_elem_of_fmap. split.
    + intros [p Hp]. exists (key, p). split; [done|].
      by apply elem_of_map_to_list.
    + intros ([k p] & -> & H%elem_of_map_to_list). simpl. by rewrite H.
  - rewrite omap_lookup_fst; [done|].
    apply Forall_forall. intros [k p] H%elem_of_map_to_list. done.
Qed.

Lemma peers_values_spec (st : PeersManager) (peer : Peer) :
  peer ∈ peers_values st ↔ ∃ u, peers st !! u = Some peer.
Proof.
  rewrite peers_values_Permutation, list_elem_of_fmap. split.
  - intros ([u p] & -> & H%elem_of_map_to_list). by exists u.
  - intros [u Hu]. exists (u, peer). split; [done|].
    by apply elem_of_map_to_list.
Qed.

(** A registry whose keys are listed in [order] is visited in that order,
    but for the keys that are array indices. *)
Lemma own_keys_listed (st : PeersManager) :
  order_lists_keys st → own_keys st = visiting_order (order st).
Proof.
  intros [Hnd Hdom]. unfold own_keys.
  assert (filter (λ key, key ∉ order st) (map_to_list (peers st)).*1 = [])
    as ->.
  { apply filter_none, Forall_forall.
    intros key ([k p] & -> & H%elem_of_map_to_list)%list_elem_of_fmap Hout.
    apply Hout, Hdom. simpl. by rewrite H. }
  rewrite app_nil_r.
  assert (filter (λ key, is_Some (peers st !! key)) (order st) = order st)
    as ->.
  { apply filter_all, Forall_forall. intros key. apply Hdom. }
  assert (∀ l : list string, NoDup l → remove_dups l = l) as Hrd.
  { induction 1 as [|x l Hx _ IH]; [done|].
    simpl. destruct (decide_rel elem_of x l); [done|by rewrite IH]. }
  by rewrite Hrd, reverse_involutive by by rewrite reverse_Permutation.
Qed.

Lemma own_keys_order (st : PeersManager) :
  order_lists_keys st →
  Forall (λ key, array_index key = None) (order st) →
  own_keys st = order st.
Proof.
  intros Hst Hidx. rewrite own_keys_listed by done.
  unfold visiting_order.
  assert (Forall (λ key, ¬ is_Some (array_index key)) (order st)) as Hno.
  { eapply Forall_impl; [exact Hidx|]. intros key -> [? ?]. done. }
  by rewrite filter_none, filter_all.
Qed.

Lemma assign_order_lists_keys (uuid : string) (peer : Peer)
    (st : PeersManager) :
  order_lists_keys st → order_lists_keys (assign uuid peer st).
Proof.
  intros [Hnd Hdom]. unfold order_lists_keys, assign. cbn [order peers].
  destruct (peers st !! uuid) as [existing|] eqn:E.
  - split; [done|]. intros key. rewrite lookup_insert_is_Some', Hdom.
    split; [by right|]. intros [<-|H]; [by rewrite E|done].
  - split.
    + apply NoDup_app. split; [done|]. split; [|apply NoDup_singleton].
      intros key [p Hp]%Hdom ->%list_elem_of_singleton.
      by rewrite E in Hp.
    + intros key.
      rewrite elem_of_app, list_elem_of_singleton, lookup_insert_is_Some'.
      rewrite Hdom. split; (intros [H|H]; [by right|by left]).
Qed.

Lemma Peer_disconnect_order_lists_keys (uuid : string) (peer : Peer)
    (force : bool) (st : PeersManager) :
  is_Some (peers st !! uuid) →
  order_lists_keys st → order_lists_keys (Peer_disconnect uuid peer force st).
Proof.
  intros Hu [Hnd Hdom]. unfold order_lists_keys, Peer_disconnect.
  cbn [order peers]. split; [done|].
  intros key. rewrite lookup_insert_is_Some', Hdom.
  split; [by right|]. by intros [<-|H].
Qed.

Lemma step_order_lists_keys (o : Op) (st : PeersManager) :
  order_lists_keys st → order_lists_keys (step' o st).
Proof.
  intros H.
  destruct o as [body handshake|host uuid force outcome|uuid autoConnect
                |net message ignore|net|type|completion peer];
    [| | |exact H..].
  - cbn [step]. unfold connect_webrtc_peer.
    case_bool_decide; [done|].
    assert (∀ e st1, order_lists_keys st1 → order_lists_keys (log e st1))
      as Hlog by done.
    destruct (peers st !! req_uuid body) as [existing|] eqn:E;
      [destruct (bool_decide _ && bool_decide _)|];
      destruct handshake; cbn [snd];
      apply Hlog, assign_order_lists_keys; try done;
      apply Peer_disconnect_order_lists_keys; by rewrite ?E.
  - cbn [step joinPeerWithHttpApi snd].
    by apply (assign_order_lists_keys _ _ st).
  - cbn [step]. unfold getPeerByUuid.
    destruct (peers st !! uuid) eqn:E; [done|].
    destruct autoConnect; cbn [snd];
      by apply (assign_order_lists_keys _ _ st).
Qed.

(** Every registry that the operations build from that of the constructor
    is visited in the order in which its keys were created, but for the
    keys that are array indices. *)
Lemma steps_own_keys (os : list Op) :
  let st := steps' os (constructed getLocalPeer) in
  order_lists_keys st ∧ own_keys st = visiting_order (order st).
Proof.
  intros st.
  assert (order_lists_keys st) as Hst; [|by split; [|apply own_keys_listed]].
  unfold st. clear st.
  assert (order_lists_keys (constructed getLocalPeer)) as H0.
  { apply assign_order_lists_keys. split; [apply NoDup_nil_2|].
    intros key. cbn [order peers]. rewrite lookup_empty.
    split; [by intros ?%elem_of_nil|by intros [? ?]]. }
  generalize dependent (constructed getLocalPeer).
  induction os as [|o os IH]; intros st Hst; [done|].
  simpl. by apply IH, step_order_lists_keys.
Qed.

(** ** What [broadcast] sends *)

Section Broadcast.

Variable net : Peer → Completion (Settled bool).
Variable message : ControllerMessage.
Variable ignore : list string.

(** The sends to the peers of a list whose uuid is not to be ignored, in
    the order of the list. *)
Local Abbreviation sends values :=
  ((λ peer, sendControllerMessage peer message (net peer))
     <$> filter (λ peer, peer_uuid peer ∉ ignore) values).

(** The send to the peer throws no exception, if it is made. *)
Local Abbreviation returns peer :=
  (peer_uuid peer ∈ ignore ∨ ∃ promise, net peer = Normal promise).

Lemma map_sendToPeer_app (values1 values2 : list Peer)
    (promises : list (Settled bool)) :
  (map_sendToPeer net message ignore values1).2 = Normal promises →
  map_sendToPeer net message ignore (values1 ++ values2)
  = ((map_sendToPeer net message ignore values1).1
       ++ (map_sendToPeer net message ignore values2).1,
     match (map_sendToPeer net message ignore values2).2 with
     | Normal promises2 => Normal (promises ++ promises2)
     | Throw e => Throw e
     end).
Proof.
  revert promises.
  induction values1 as [|peer values1 IH]; intros promises H.
  - simpl in H. simplify_eq. simpl.
    by destruct (map_sendToPeer net message ignore values2) as [? [?|?]].
  - simpl in *.
    destruct (sendToPeer net message ignore peer) as [call [promise|e]];
      [|done].
    simpl in *.
    destruct (map_sendToPeer net message ignore values1) as [calls [ps|e]]
      eqn:E; [|done].
    simpl in *. simplify_eq. rewrite (IH ps eq_refl). simpl.
    rewrite app_assoc.
    by destruct (map_sendToPeer net message ignore values2) as [? [?|?]].
Qed.

(** When no send throws, every peer is visited: the calls are the sends
    to the peers that are not ignored, in order, and the promises are
    those of [sendToPeer], one for each peer. *)
Lemma map_sendToPeer_returns (values : list Peer) :
  Forall (λ peer, returns peer) values →
  (map_sendToPeer net message ignore values).1 = sends values
  ∧ ∃ promises,
      (map_sendToPeer net message ignore values).2 = Normal promises
      ∧ Forall2 (λ peer promise,
                   (sendToPeer net message ignore peer).2 = Normal promise)
          values promises.
Proof.
  induction 1 as [|peer values Hpeer _ (IH1 & promises & IH2 & IH3)].
  { split; [done|]. exists []. by split. }
  simpl. unfold sendToPeer at 1 2. rewrite filter_cons.
  destruct (decide (peer_uuid peer ∈ ignore)) as [Hig|Hig].
  - rewrite bool_decide_eq_true_2 by done.
    rewrite decide_False by (by intros ?). simpl.
    split; [done|]. rewrite IH2. eexists. split; [done|].
    constructor; [|done].
    unfold sendToPeer. by rewrite bool_decide_eq_true_2.
  - rewrite bool_decide_eq_false_2 by done.
    rewrite decide_True by done.
    destruct Hpeer as [?|[promise Hpromise]]; [done|].
    rewrite Hpromise. simpl. rewrite IH1, IH2.
    split; [by rewrite Hpromise|]. eexists. split; [done|].
    constructor; [|done].
    unfold sendToPeer. by rewrite bool_decide_eq_false_2.
Qed.

(** When a send throws, the peers after it are not visited. *)
Lemma map_sendToPeer_throws (before after : list Peer) (peer : Peer)
    (e : Exception) :
  Forall (λ peer, returns peer) before →
  peer_uuid peer ∉ ignore → net peer = Throw e →
  map_sendToPeer net message ignore (before ++ peer :: after)
  = (sends before ++ [sendControllerMessage peer message (Throw e)],
     Throw e).
Proof.
  intros Hbefore Hig He.
  destruct (map_sendToPeer_returns before Hbefore)
    as (H1 & promises & H2 & _).
  rewrite (map_sendToPeer_app _ _ promises H2), H1. simpl.
  unfold sendToPeer. rewrite bool_decide_eq_false_2 by done.
  by rewrite He.
Qed.

(** A send that throws is found at the first peer, in the order of the
    visit, whose send throws. *)
Lemma first_throw (values : list Peer) :
  Forall (λ peer, returns peer) values
  ∨ ∃ before peer after e,
      values = before ++ peer :: after
      ∧ Forall (λ peer, returns peer) before
      ∧ (peer_uuid peer ∉ ignore) ∧ net peer = Throw e.
Proof.
  induction values as [|peer values [IH|(before & p & after & e & IH)]].
  - by left.
  - destruct (decide (peer_uuid peer ∈ ignore)) as [Hig|Hig].
    { left. constructor; [by left|done]. }
    destruct (net peer) as [promise|e] eqn:E.
    + left. constructor; [right; by eauto|done].
    + right. exists [], peer, values, e. by repeat split.
  - destruct IH as (-> & Hbefore & Hig & He).
    destruct (decide (peer_uuid peer ∈ ignore)) as [Hig'|Hig'].
    { right. exists (peer :: before), p, after, e.
      repeat split; try done. constructor; [by left|done]. }
    destruct (net peer) as [promise|e'] eqn:E.
    + right. exists (peer :: before), p, after, e.
      repeat split; try done. constructor; [right; by eauto|done].
    + right. exists [], peer, (before ++ p :: after), e'. by repeat split.
Qed.

End Broadcast.

Lemma Promise_all_Fulfilled {A} (promises : list (Settled A)) :
  (∃ values, Promise_all promises = Fulfilled values)
  ↔ ∀ p, p ∈ promises → ∃ a, p = Fulfilled a.
Proof.
  induction promises as [|p promises IH]; simpl.
  - split; [|by eauto]. by intros _ p Hp%elem_of_nil.
  - destruct p as [a|reason].
    + destruct (Promise_all promises) as [values|reason'] eqn:E.
      * split; [|by eauto]. intros _ p Hp.
        apply elem_of_cons in Hp as [->|Hp]; [by eauto|].
        apply IH; [by eauto|done].
      * split; [by intros [? ?]|]. intros H.
        destruct (proj2 IH) as [? ?]; [|done].
        intros p Hp. apply H. by right.
    + split; [by intros [? ?]|]. intros H.
      destruct (H (Rejected reason)) as [? ?]; [by left|done].
Qed.

(** X13.  The promise that [broadcast] returns is fulfilled exactly when
    the send to every peer that is not ignored is fulfilled; one rejected
    send rejects it, and so does one send that throws. *)
Lemma broadcast_promise (net : Peer → Completion (Settled bool))
    (message : ControllerMessage) (ignore : list string)
    (st : PeersManager) :
  (broadcast net message ignore st).1 = Fulfilled tt
  ↔ ∀ u peer, peers st !! u = Some peer → peer_uuid peer ∉ ignore →
      ∃ b, net peer = Normal (Fulfilled b).
Proof.
  unfold broadcast. cbn [fst].
  destruct (first_throw net ignore (peers_values st))
    as [Hall|(before & failing & after & e & Hvalues & Hbefore & Hig & He)].
  - destruct (map_sendToPeer_returns net message ignore _ Hall)
      as (_ & promises & -> & Hpromises).
    transitivity (∃ values, Promise_all promises = Fulfilled values).
    { destruct (Promise_all promises) as [values|reason].
      - split; [by eauto|done].
      - split; [done|]. by intros [values ?]. }
    rewrite Promise_all_Fulfilled. split.
    + intros H u peer Hu Hnot.
      assert (peer ∈ peers_values st) as Hin
        by (apply peers_values_spec; by exists u).
      apply list_elem_of_lookup in Hin as [i Hi].
      destruct (Forall2_lookup_l _ _ _ _ _ Hpromises Hi)
        as (promise & Hp & Hsent).
      unfold sendToPeer in Hsent.
      rewrite bool_decide_eq_false_2 in Hsent by done. simpl in Hsent.
      destruct (H promise) as [b ->]; [by eapply list_elem_of_lookup_2|].
      by exists b.
    + intros H promise [i Hi]%list_elem_of_lookup.
      destruct (Forall2_lookup_r _ _ _ _ _ Hpromises Hi)
        as (peer & Hp & Hsent).
      unfold sendToPeer in Hsent. case_bool_decide; simpl in Hsent.
      { simplify_eq. by eauto. }
      apply list_elem_of_lookup_2, peers_values_spec in Hp as [u Hu].
      destruct (H u peer Hu) as [b Hb]; [done|].
      rewrite Hb in Hsent. simplify_eq. by eauto.
  - rewrite Hvalues.
    rewrite (map_sendToPeer_throws net message ignore _ _ _ e Hbefore Hig He).
    simpl. split; [done|]. intros H.
    assert (failing ∈ peers_values st) as [u Hu]%peers_values_spec.
    { rewrite Hvalues. apply elem_of_app. right. by left. }
    destruct (H u failing Hu Hig) as [b Hb]. by rewrite Hb in He.
Qed.

End Registry.

(** ** The claims about the peer registry *)

(** C1, as the code has it.  [broadcast] leaves the registry as it is and
    visits its peers one after the other, each key once.

    As long as no send throws ([net] gives each peer a promise, fulfilled
    or rejected), the calls made are exactly these, in the order of the
    visit: one [sendControllerMessage(message)] on every peer of the
    registry whose uuid is not in [ignorePeerByUuid], each with the
    promise of its own send.  When the send to one peer [failing] is made
    to reject, the same calls are made, and every other send has the
    promise it had.

    A send that throws ends the visit: the calls made are the sends to
    the peers visited before, then the send that throws; no peer after it
    is sent to, and the promise of [broadcast] is rejected with the
    exception. *)
Theorem broadcast_isolates_rejections_only
    (net : Peer → Completion (Settled bool)) (message : ControllerMessage)
    (ignore : list string) (st : PeersManager) :
  let sends (net : Peer → Completion (Settled bool)) (values : list Peer) :=
    (λ peer, sendControllerMessage peer message (net peer))
      <$> filter (λ peer, peer_uuid peer ∉ ignore) values in
  let rejecting failing reason peer :=
    if decide (peer = failing) then Normal (Rejected reason) else net peer in
  peers (broadcast net message ignore st).2 = peers st
  ∧ peers_values st ≡ₚ (map_to_list (peers st)).*2
  ∧ ((∀ u peer, peers st !! u = Some peer → peer_uuid peer ∉ ignore →
        ∃ promise, net peer = Normal promise) →
     trace (broadcast net message ignore st).2
     = trace st ++ sends net (peers_values st)
     ∧ ∀ failing reason,
         trace (broadcast (rejecting failing reason) message ignore st).2
         = trace st ++ sends (rejecting failing reason) (peers_values st)
         ∧ ∀ u peer,
             peers st !! u = Some peer → peer_uuid peer ∉ ignore →
             peer ≠ failing →
             sendControllerMessage peer message (net peer)
             ∈ trace (broadcast (rejecting failing reason) message ignore
                        st).2)
  ∧ (∀ before failing after e,
       peers_values st = before ++ failing :: after →
       Forall (λ peer, peer_uuid peer ∈ ignore
                       ∨ ∃ promise, net peer = Normal promise) before →
       peer_uuid failing ∉ ignore →
       net failing = Throw e →
       (broadcast net message ignore st).1 = Rejected (exception_message e)
       ∧ trace (broadcast net message ignore st).2
         = trace st ++ sends net before
           ++ [sendControllerMessage failing message (Throw e)]).
Proof.
  intros sends rejecting.
  split; [done|]. split; [apply peers_values_Permutation|].
  assert (∀ net', (∀ u peer, peers st !! u = Some peer →
             peer_uuid peer ∉ ignore → ∃ promise, net' peer = Normal promise) →
           trace (broadcast net' message ignore st).2
           = trace st ++ sends net' (peers_values st)) as Hreturns.
  { intros net' Hnet'. unfold broadcast. cbn [snd trace]. f_equal.
    apply map_sendToPeer_returns, Forall_forall.
    intros peer [u Hu]%peers_values_spec.
    destruct (decide (peer_uuid peer ∈ ignore)); [by left|right].
    by eapply Hnet'. }
  split.
  - intros Hnet. split; [by apply Hreturns|].
    intros failing reason.
    assert (trace (broadcast (rejecting failing reason) message ignore st).2
            = trace st ++ sends (rejecting failing reason) (peers_values st))
      as Hrejecting.
    { apply Hreturns. intros u peer Hu Hig. unfold rejecting.
      case_decide; [by eauto|by eapply Hnet]. }
    split; [done|].
    intros u peer Hu Hig Hne. rewrite Hrejecting.
    apply elem_of_app. right. apply list_elem_of_fmap. exists peer. split.
    + unfold rejecting. by rewrite decide_False.
    + apply list_elem_of_filter. split; [done|].
      apply peers_values_spec. by exists u.
  - intros before failing after e Hvalues Hbefore Hig He.
    unfold broadcast. cbn [fst snd trace]. rewrite Hvalues.
    by rewrite (map_sendToPeer_throws net message ignore _ _ _ e
                  Hbefore Hig He).
Qed.

(** C2, as the code has it.  For a request that carries this process's
    version and whose uuid is registered to a [WebrtcPeer] with another
    [instanceUuid], the handler first calls [disconnect(true)] on that
    peer, then assigns the new peer under the uuid, then hands it the
    description; afterwards the registry holds the new peer under that
    uuid, a peer different from the old one, and every other entry is as
    before. *)
Theorem stale_session_evicted (getLocalPeer : Peer)
    (SOUNDSYNC_VERSION : string) (body : ConnectRequest)
    (handshake : Settled string) (st : PeersManager) (existingPeer : Peer) :
  req_version body = SOUNDSYNC_VERSION →
  peers st !! req_uuid body = Some existingPeer →
  peer_class existingPeer = WebrtcPeer →
  peer_instanceUuid existingPeer ≠ req_instanceUuid body →
  let peer :=
    new_WebrtcPeer (req_uuid body) (req_name body) (req_ip body)
      (req_instanceUuid body) in
  let st' :=
    (connect_webrtc_peer getLocalPeer SOUNDSYNC_VERSION body handshake st).2 in
  trace st'
  = trace st ++ [disconnect existingPeer true;
                 set_peer (req_uuid body) peer;
                 handlePeerConnectionMessage peer (req_description body)]
  ∧ peers st' = <[req_uuid body := peer]> (peers st)
  ∧ peers st' !! req_uuid body = Some peer
  ∧ peer ≠ existingPeer
  ∧ (∀ u, u ≠ req_uuid body → peers st' !! u = peers st !! u).
Proof.
  intros Hv He Hc Hi peer st'.
  assert (Hst' : st' =
    log (handlePeerConnectionMessage peer (req_description body))
      (assign (req_uuid body) peer
         (Peer_disconnect (req_uuid body) existingPeer true st))).
  { unfold st', connect_webrtc_peer.
    rewrite bool_decide_eq_false_2 by (by intros ?).
    rewrite He, Hc.
    rewrite (bool_decide_eq_true_2 (WebrtcPeer = WebrtcPeer)) by done.
    rewrite (bool_decide_eq_true_2 _ Hi). by destruct handshake. }
  rewrite Hst'. simpl. rewrite insert_insert_eq.
  split; [by rewrite <-!app_assoc|]. split; [done|].
  split; [apply lookup_insert_eq|]. split.
  - intros Heq. apply Hi. by rewrite <-Heq.
  - intros u Hu. by apply lookup_insert_ne.
Qed.

(** C6, as the code has it.  The constructor puts the local peer under its
    own uuid.  No operation deletes a key, so that uuid stays a key of the
    registry whatever operations follow; and it stays mapped to the local
    peer as long as no connection request and no [joinPeerWithHttpApi]
    names that uuid (either of them assigns a new peer under the uuid it
    names). *)
Theorem local_peer_key_stays (getLocalPeer : Peer)
    (SOUNDSYNC_VERSION : string) (os : list Op) :
  let st0 := constructed getLocalPeer in
  let st := steps getLocalPeer SOUNDSYNC_VERSION os st0 in
  new_PeersManager getLocalPeer None = Normal st0
  ∧ peers st0 !! peer_uuid getLocalPeer = Some getLocalPeer
  ∧ is_Some (peers st !! peer_uuid getLocalPeer)
  ∧ (Forall (λ o, names o ≠ Some (peer_uuid getLocalPeer)) os →
     peers st !! peer_uuid getLocalPeer = Some getLocalPeer).
Proof.
  intros st0 st.
  assert (H0 : peers st0 !! peer_uuid getLocalPeer = Some getLocalPeer)
    by apply lookup_insert_eq.
  split; [done|]. split; [done|]. split.
  - apply steps_keeps_keys. by rewrite H0.
  - intros Hos. by apply steps_keeps_others.
Qed.

(** C7.  A request whose version is not this process's is answered by the
    HTTP error 400 whose message names both versions, and the manager is
    left exactly as it was: no peer assigned, no call made. *)
Theorem version_mismatch_rejected (getLocalPeer : Peer)
    (SOUNDSYNC_VERSION : string) (body : ConnectRequest)
    (handshake : Settled string) (st : PeersManager) :
  req_version body ≠ SOUNDSYNC_VERSION →
  connect_webrtc_peer getLocalPeer SOUNDSYNC_VERSION body handshake st
  = (Throw (HttpError 400
              (versionMismatch SOUNDSYNC_VERSION (req_version body))), st)
  ∧ occurs_in SOUNDSYNC_VERSION
      (versionMismatch SOUNDSYNC_VERSION (req_version body))
  ∧ occurs_in (req_version body)
      (versionMismatch SOUNDSYNC_VERSION (req_version body)).
Proof.
  intros Hv. split; [|apply versionMismatch_names_both].
  unfold connect_webrtc_peer. by rewrite bool_decide_eq_true_2.
Qed.

(** ** The claims at concrete registries *)

(** Closes [x ∉ l] for a list [l] that computes to explicit elements, all
    of them distinct from [x] by their constructors. *)
Ltac not_in_computed_list :=
  let H := fresh in
  intros H; vm_compute in H;
  repeat (apply elem_of_cons in H as [H|H]; [discriminate H|]);
  by apply elem_of_nil in H.

Example registry_LA_peers :
  peers registry_LA !! "L" = Some local_L
  ∧ peers registry_LA !! "A" = Some peer_A
  ∧ trace registry_LA
    = [set_peer "L" local_L; set_peer "A" peer_A;
       handlePeerConnectionMessage peer_A "offer"].
Proof. by vm_compute. Qed.

(** The registry is visited in the order in which its keys were created,
    but for the keys that are array indices, which come first. *)
Example registry_visited_in_order :
  peers_values registry_LAB = [local_L; peer_A; peer_B]
  ∧ peer_uuid <$> peers_values registry_numeric = ["9"; "10"; "L"; "b"; "07"].
Proof. by vm_compute. Qed.

Lemma broadcast_isolates_rejections_only_witness :
  A_unreachable peer_A = Normal (Rejected "closed")
  ∧ trace (broadcast A_unreachable (otherMessage "ping") ["L"]
             registry_LAB).2
    = trace registry_LAB
      ++ [sendControllerMessage peer_A (otherMessage "ping")
            (Normal (Rejected "closed"));
          sendControllerMessage peer_B (otherMessage "ping")
            (Normal (Fulfilled true))]
  ∧ A_throws peer_A = Throw (Error "channel closed")
  ∧ (broadcast A_throws (otherMessage "ping") [] registry_LAB).1
    = Rejected "channel closed"
  ∧ trace (broadcast A_throws (otherMessage "ping") [] registry_LAB).2
    = trace registry_LAB
      ++ [sendControllerMessage local_L (otherMessage "ping")
            (Normal (Fulfilled true));
          sendControllerMessage peer_A (otherMessage "ping")
            (Throw (Error "channel closed"))].
Proof.
  split; [by vm_compute|]. split; [|split; [by vm_compute|]].
  - rewrite (proj1 (proj1 (proj2 (proj2
      (broadcast_isolates_rejections_only A_unreachable
         (otherMessage "ping") ["L"] registry_LAB)))
      (λ _ peer _ _,
         match decide (peer = peer_A) as d
         return ∃ promise,
           (if d then Normal (Rejected "closed")
            else Normal (Fulfilled true)) = Normal promise
         with
         | left _ => ex_intro _ (Rejected "closed") eq_refl
         | right _ => ex_intro _ (Fulfilled true) eq_refl
         end))).
    by vm_compute.
  - destruct (proj2 (proj2 (proj2
      (broadcast_isolates_rejections_only A_throws
         (otherMessage "ping") [] registry_LAB)))
      [local_L] peer_A [peer_B] (Error "channel closed")) as [-> ->].
    + by vm_compute.
    + apply Forall_cons. split; [|apply Forall_nil_2].
      right. exists (Fulfilled true). by vm_compute.
    + apply not_elem_of_nil.
    + by vm_compute.
    + by vm_compute.
Defined.

(** C1 as stated fails for a send that fails by throwing: the peers that
    are visited after it are not sent to.  In the registry of L, A and B,
    in which B has connected last, no call is made on B when the send to
    A throws, though B is not ignored and its own send would be
    fulfilled. *)
Lemma broadcast_stops_at_throwing_send :
  peers registry_LAB !! "B" = Some peer_B
  ∧ (peer_uuid peer_B ∉ @nil string)
  ∧ peer_B ≠ peer_A
  ∧ A_throws peer_A = Throw (Error "channel closed")
  ∧ A_throws peer_B = Normal (Fulfilled true)
  ∧ trace (broadcast A_throws (otherMessage "ping") [] registry_LAB).2
    = trace registry_LAB
      ++ [sendControllerMessage local_L (otherMessage "ping")
            (Normal (Fulfilled true));
          sendControllerMessage peer_A (otherMessage "ping")
            (Throw (Error "channel closed"))]
  ∧ (∀ message completion,
       sendControllerMessage peer_B message completion
       ∉ trace (broadcast A_throws (otherMessage "ping") []
                  registry_LAB).2)
  ∧ (broadcast A_throws (otherMessage "ping") [] registry_LAB).1
    = Rejected "channel closed".
Proof.
  split; [by vm_compute|]. split; [apply not_elem_of_nil|].
  split; [discriminate|]. split; [by vm_compute|]. split; [by vm_compute|].
  split; [by vm_compute|]. split; [|by vm_compute].
  intros message completion. not_in_computed_list.
Qed.

(** On the network on which the send to A is rejected, the promise of
    [broadcast] itself is rejected, while the sends to the other peers
    have been made. *)
Example broadcast_promise_rejected :
  (broadcast A_unreachable (otherMessage "ping") [] registry_LAB).1
  = Rejected "closed"
  ∧ length (trace (broadcast A_unreachable (otherMessage "ping") []
                     registry_LAB).2)
    = length (trace registry_LAB) + 3.
Proof. by vm_compute. Qed.

Lemma stale_session_evicted_witness :
  let st' :=
    (connect_webrtc_peer local_L version_1_9 request_A_restarted
       (Fulfilled "answer") registry_LA).2 in
  trace st'
  = trace registry_LA
    ++ [disconnect peer_A true; set_peer "A" peer_A_restarted;
        handlePeerConnectionMessage peer_A_restarted "offer"]
  ∧ peers st' !! "A" = Some peer_A_restarted.
Proof.
  destruct (stale_session_evicted local_L version_1_9 request_A_restarted
              (Fulfilled "answer") registry_LA peer_A)
    as (Ht & _ & Hp & _).
  - reflexivity.
  - by vm_compute.
  - reflexivity.
  - discriminate.
  - split; [exact Ht|exact Hp].
Defined.

(** C2 as stated fails in two ways.  A request that carries the local
    uuid finds the local peer, which is no [WebrtcPeer]: it is replaced
    without [disconnect] being called.  And a request with another
    version, whatever its uuid, is rejected: the peer registered under
    that uuid is neither disconnected nor replaced. *)
Lemma known_uuid_not_always_evicted :
  (peers (constructed local_L) !! req_uuid request_L = Some local_L
   ∧ peer_instanceUuid local_L ≠ req_instanceUuid request_L
   ∧ trace (connect_webrtc_peer local_L version_1_9 request_L
              (Fulfilled "answer") (constructed local_L)).2
     = trace (constructed local_L)
       ++ [set_peer "L" (new_WebrtcPeer "L" "L" "10.0.0.2" "i1");
           handlePeerConnectionMessage
             (new_WebrtcPeer "L" "L" "10.0.0.2" "i1") "offer"]
   ∧ disconnect local_L true
     ∉ trace (connect_webrtc_peer local_L version_1_9 request_L
                (Fulfilled "answer") (constructed local_L)).2)
  ∧ (peers registry_LA !! req_uuid request_A_other_version = Some peer_A
     ∧ peer_instanceUuid peer_A ≠ req_instanceUuid request_A_other_version
     ∧ (connect_webrtc_peer local_L version_1_9 request_A_other_version
          (Fulfilled "answer") registry_LA).2 = registry_LA
     ∧ peers (connect_webrtc_peer local_L version_1_9
                request_A_other_version (Fulfilled "answer") registry_LA).2
         !! "A" = Some peer_A
     ∧ disconnect peer_A true
       ∉ trace (connect_webrtc_peer local_L version_1_9
                  request_A_other_version (Fulfilled "answer")
                  registry_LA).2).
Proof.
  split.
  - split; [by vm_compute|]. split; [discriminate|].
    split; [by vm_compute|]. not_in_computed_list.
  - split; [by vm_compute|]. split; [discriminate|].
    split; [by vm_compute|]. split; [by vm_compute|].
    not_in_computed_list.
Qed.

Lemma local_peer_key_stays_witness :
  peers (steps local_L version_1_9
           [op_connect_webrtc_peer request_A (Fulfilled "answer");
            op_joinPeerWithHttpApi "10.0.0.3" None None (Rejected "timeout");
            op_getPeerByUuid "C" true;
            op_broadcast A_unreachable (otherMessage "ping") []]
           (constructed local_L)) !! "L"
  = Some local_L.
Proof.
  apply (proj2 (proj2 (proj2 (local_peer_key_stays local_L version_1_9
          [op_connect_webrtc_peer request_A (Fulfilled "answer");
           op_joinPeerWithHttpApi "10.0.0.3" None None (Rejected "timeout");
           op_getPeerByUuid "C" true;
           op_broadcast A_unreachable (otherMessage "ping") []])))).
  repeat (apply Forall_cons; split; [discriminate|]).
  apply Forall_nil_2.
Defined.

(** C6 as stated fails: a connection request, or a call of
    [joinPeerWithHttpApi], that names the local uuid assigns a new
    [WebrtcPeer] under it, and the local peer is no longer in the
    registry. *)
Lemma local_peer_entry_overwritten :
  new_PeersManager local_L None = Normal (constructed local_L)
  ∧ peers (constructed local_L) !! "L" = Some local_L
  ∧ peers (steps local_L version_1_9
             [op_connect_webrtc_peer request_L (Fulfilled "answer")]
             (constructed local_L)) !! "L"
    = Some (new_WebrtcPeer "L" "L" "10.0.0.2" "i1")
  ∧ peers (steps local_L version_1_9
             [op_connect_webrtc_peer request_L (Fulfilled "answer")]
             (constructed local_L)) !! "L"
    ≠ Some local_L
  ∧ peers (steps local_L version_1_9
             [op_joinPeerWithHttpApi "10.0.0.3" (Some "L") None
                (Fulfilled tt)]
             (constructed local_L)) !! "L"
    ≠ Some local_L
  ∧ ∀ u p, peers (steps local_L version_1_9
                    [op_connect_webrtc_peer request_L (Fulfilled "answer")]
                    (constructed local_L)) !! u = Some p →
           p ≠ local_L.
Proof.
  split; [reflexivity|]. split; [by vm_compute|]. split; [by vm_compute|].
  split; [by vm_compute|]. split; [by vm_compute|].
  intros u p Hu ->.
  apply elem_of_map_to_list in Hu. vm_compute in Hu.
  apply list_elem_of_singleton in Hu. discriminate.
Qed.

Lemma version_mismatch_rejected_witness :
  connect_webrtc_peer local_L version_1_9 request_A_other_version
    (Fulfilled "answer") registry_LA
  = (Throw (HttpError 400 (versionMismatch "1.9" "2.0")), registry_LA)
  ∧ occurs_in "1.9" (versionMismatch "1.9" "2.0")
  ∧ occurs_in "2.0" (versionMismatch "1.9" "2.0").
Proof.
  apply (version_mismatch_rejected local_L version_1_9
           request_A_other_version (Fulfilled "answer") registry_LA).
  discriminate.
Defined.

(** Section 8, scenario 10. *)
Example version_2_0_against_1_9 :
  (connect_webrtc_peer local_L version_1_9 (request "A" "2.0" "i1")
     (Fulfilled "answer") (constructed local_L)).2
  = constructed local_L
  ∧ peers (constructed local_L) !! "A" = None.
Proof. by vm_compute. Qed.

(** * Further properties of the source/sink registry *)

(** ** Searching a collection that has just been changed *)

Section Find.

Context {A : Type} (P : A → Prop) `{!∀ x, Decision (P x)}.

Lemma list_find_insert_found (l : list A) (i : nat) (x x' : A) :
  list_find P l = Some (i, x) → P x' →
  list_find P (<[i := x']> l) = Some (i, x').
Proof.
  intros (Hi & _ & Hfirst)%list_find_Some Hx'. apply list_find_Some.
  split; [|split; [done|]].
  - apply list_lookup_insert_eq. by eapply lookup_lt_Some.
  - intros j y Hj Hlt. rewrite list_lookup_insert_ne in Hj by lia.
    by eapply Hfirst.
Qed.

Lemma list_find_insert_fresh (l : list A) (i : nat) (x x' : A) :
  l !! i = Some x → P x' → Forall (λ y, ¬ P y) l →
  list_find P (<[i := x']> l) = Some (i, x').
Proof.
  intros Hi Hx' Hl. apply list_find_Some. split; [|split; [done|]].
  - apply list_lookup_insert_eq. by eapply lookup_lt_Some.
  - intros j y Hj Hlt. rewrite list_lookup_insert_ne in Hj by lia.
    rewrite Forall_lookup in Hl. by eapply Hl.
Qed.

Lemma list_find_snoc_fresh (l : list A) (x : A) :
  Forall (λ y, ¬ P y) l → P x →
  list_find P (l ++ [x]) = Some (length l, x).
Proof.
  intros Hl Hx. apply list_find_Some. split; [|split; [done|]].
  - by apply list_lookup_middle.
  - intros j y Hj Hlt. rewrite lookup_app_l in Hj by done.
    rewrite Forall_lookup in Hl. by eapply Hl.
Qed.

(** An update elsewhere, by an element on which [P] fails, and to an
    element on which [P] fails, does not change what is found. *)
Lemma list_find_insert_other (l : list A) (i j : nat) (x y : A) :
  list_find P l = Some (i, x) → ¬ P y → i ≠ j →
  list_find P (<[j := y]> l) = Some (i, x).
Proof.
  intros (Hi & Hx & Hfirst)%list_find_Some Hy Hij. apply list_find_Some.
  split; [|split; [done|]].
  - by rewrite list_lookup_insert_ne.
  - intros j' y' Hj' Hlt.
    apply list_lookup_insert_Some in Hj' as [(-> & <- & _)|[_ Hj']]; [done|].
    by eapply Hfirst.
Qed.

(** Filtering by a property that [P] implies keeps what is found. *)
Lemma list_find_filter_implied (Q : A → Prop) `{!∀ x, Decision (Q x)}
    (l : list A) :
  (∀ x, P x → Q x) →
  snd <$> list_find P (filter Q l) = snd <$> list_find P l.
Proof.
  intros HPQ. induction l as [|x l IH]; [done|].
  destruct (decide (Q x)) as [HQ|HQ].
  - rewrite filter_cons_True by done. cbn. case_decide; [done|].
    rewrite <-!option_fmap_compose. apply IH.
  - rewrite filter_cons_False by done. cbn.
    rewrite decide_False by (intros ?; apply HQ; by apply HPQ).
    rewrite <-option_fmap_compose. apply IH.
Qed.

End Find.

(** ** The ways a call of [addSource] or [addSink] can go *)

Lemma and_then_source_None (d : SourceDescriptor) (st : Manager) :
  and_then (sd_uuid d) (λ u, getSourceByUuid u st) = None
  ↔ ∀ u, sd_uuid d = Some u → u ≠ "" →
         ∀ s, s ∈ sources st → source_uuid s ≠ Some u.
Proof.
  split; [|apply no_source_with_uuid].
  intros H u Hu Hne s Hs Hsu.
  eapply and_then_None in H; [|done..].
  apply list_find_None in H. rewrite Forall_forall in H. by apply (H s).
Qed.

Lemma and_then_sink_None (d : SinkDescriptor) (st : Manager) :
  and_then (kd_uuid d) (λ u, getSinkByUuid u st) = None
  ↔ ∀ u, kd_uuid d = Some u → u ≠ "" →
         ∀ k, k ∈ sinks st → sink_uuid k ≠ Some u.
Proof.
  split; [|apply no_sink_with_uuid].
  intros H u Hu Hne k Hk Hku.
  eapply and_then_None in H; [|done..].
  apply list_find_None in H. rewrite Forall_forall in H. by apply (H k).
Qed.

Lemma addSource_cases (localUuid : string) (d : SourceDescriptor)
    (st : Manager) :
  (∃ u i s, sd_uuid d = Some u ∧ u ≠ ""
     ∧ getSourceByUuid u st = Some (i, s)
     ∧ addSource localUuid d st
       = (Normal tt, source_updated localUuid i (source_updateInfo s d) st))
  ∨ (and_then (sd_uuid d) (λ u, getSourceByUuid u st) = None
     ∧ ∃ c, (c = RemoteSource ∧ isLocal localUuid (sd_peerUuid d) = false
            ∨ c = LibrespotSource ∧ isLocal localUuid (sd_peerUuid d) = true
              ∧ sd_type d = "librespot"
            ∨ c = NullSource ∧ isLocal localUuid (sd_peerUuid d) = true
              ∧ sd_type d = "null")
       ∧ addSource localUuid d st
         = (Normal tt, source_pushed localUuid (new_source c d) st))
  ∨ (and_then (sd_uuid d) (λ u, getSourceByUuid u st) = None
     ∧ isLocal localUuid (sd_peerUuid d) = true
     ∧ sd_type d ≠ "librespot" ∧ sd_type d ≠ "null"
     ∧ addSource localUuid d st
       = (Throw (Error ("Unknown source type " +:+ sd_type d)), st)).
Proof.
  destruct (and_then (sd_uuid d) (λ u, getSourceByUuid u st))
    as [[i s]|] eqn:E.
  - left. pose proof E as (u & Hu & Hne & Hfind)%and_then_Some.
    exists u, i, s. repeat (split; [done|]).
    by apply addSource_existing.
  - right. rewrite (addSource_absent _ _ _ E).
    destruct (isLocal localUuid (sd_peerUuid d)) eqn:El; simpl.
    + destruct (String.eqb_spec (sd_type d) "librespot") as [Ht|Ht];
        [left; split; [done|]; exists LibrespotSource; naive_solver|].
      destruct (String.eqb_spec (sd_type d) "null") as [Ht'|Ht'];
        [left; split; [done|]; exists NullSource; naive_solver|].
      by right.
    + left. split; [done|]. exists RemoteSource. naive_solver.
Qed.

Lemma addSink_cases (localUuid : string) (d : SinkDescriptor) (st : Manager) :
  (∃ u i k, kd_uuid d = Some u ∧ u ≠ ""
     ∧ getSinkByUuid u st = Some (i, k)
     ∧ addSink localUuid d st
       = (Normal tt, sink_updated localUuid i (sink_updateInfo k d) st))
  ∨ (and_then (kd_uuid d) (λ u, getSinkByUuid u st) = None
     ∧ ∃ i k, sameDevice localUuid d st = Some (i, k)
       ∧ addSink localUuid d st
         = (Normal tt, sink_updated localUuid i (sink_updateInfo k d) st))
  ∨ (and_then (kd_uuid d) (λ u, getSinkByUuid u st) = None
     ∧ sameDevice localUuid d st = None
     ∧ ∃ c, (c = RemoteSink ∧ isLocal localUuid (kd_peerUuid d) = false
            ∨ c = RtAudioSink ∧ isLocal localUuid (kd_peerUuid d) = true
              ∧ kd_type d = "rtaudio"
            ∨ c = NullSink ∧ isLocal localUuid (kd_peerUuid d) = true
              ∧ kd_type d = "null")
       ∧ addSink localUuid d st
         = (Normal tt, sink_pushed localUuid (new_sink c d) st))
  ∨ (and_then (kd_uuid d) (λ u, getSinkByUuid u st) = None
     ∧ sameDevice localUuid d st = None
     ∧ isLocal localUuid (kd_peerUuid d) = true
     ∧ kd_type d ≠ "rtaudio" ∧ kd_type d ≠ "null"
     ∧ addSink localUuid d st
       = (Throw (Error ("Unknown sink type " +:+ kd_type d)), st)).
Proof.
  destruct (and_then (kd_uuid d) (λ u, getSinkByUuid u st))
    as [[i k]|] eqn:E.
  - left. pose proof E as (u & Hu & Hne & Hfind)%and_then_Some.
    exists u, i, k. repeat (split; [done|]).
    by apply addSink_existing.
  - right. destruct (sameDevice localUuid d st) as [[i k]|] eqn:E'.
    + left. split; [done|]. exists i, k. split; [done|].
      by apply addSink_sameDevice.
    + right. rewrite (addSink_absent _ _ _ E E').
      destruct (isLocal localUuid (kd_peerUuid d)) eqn:El; simpl.
      * destruct (String.eqb_spec (kd_type d) "rtaudio") as [Ht|Ht];
          [left; split; [done|]; split; [done|];
           exists RtAudioSink; naive_solver|].
        destruct (String.eqb_spec (kd_type d) "null") as [Ht'|Ht'];
          [left; split; [done|]; split; [done|];
           exists NullSink; naive_solver|].
        by right.
      * left. split; [done|]. split; [done|].
        exists RemoteSink. naive_solver.
Qed.

(** ** When a call throws, and what a call touches *)

(** X1.  [addSource] throws exactly for a local descriptor whose type is
    neither ['librespot'] nor ['null'] and whose uuid, if non-empty, is the
    uuid of no source; [addSink] likewise with ['rtaudio'] and ['null'].
    The exception is then the unknown-type error and the manager is left
    as it was; there is no other way for either call to throw. *)
Theorem addSource_addSink_throw_iff (localUuid : string) (st : Manager) :
  (∀ d,
     ((∃ e, (addSource localUuid d st).1 = Throw e)
      ↔ isLocal localUuid (sd_peerUuid d) = true
        ∧ sd_type d ≠ "librespot" ∧ sd_type d ≠ "null"
        ∧ ∀ u, sd_uuid d = Some u → u ≠ "" →
               ∀ s, s ∈ sources st → source_uuid s ≠ Some u)
     ∧ ∀ e, (addSource localUuid d st).1 = Throw e →
            e = Error ("Unknown source type " +:+ sd_type d)
            ∧ (addSource localUuid d st).2 = st)
  ∧ (∀ d,
       ((∃ e, (addSink localUuid d st).1 = Throw e)
        ↔ isLocal localUuid (kd_peerUuid d) = true
          ∧ kd_type d ≠ "rtaudio" ∧ kd_type d ≠ "null"
          ∧ ∀ u, kd_uuid d = Some u → u ≠ "" →
                 ∀ k, k ∈ sinks st → sink_uuid k ≠ Some u)
       ∧ ∀ e, (addSink localUuid d st).1 = Throw e →
              e = Error ("Unknown sink type " +:+ kd_type d)
              ∧ (addSink localUuid d st).2 = st).
Proof.
  split; intros d.
  - destruct (addSource_cases localUuid d st)
      as [(u & i & s & Hu & Hne & Hfind & ->)
         |[(Hnone & c & Hc & ->)|(Hnone & Hl & Ht1 & Ht2 & ->)]]; simpl.
    + split; [|done]. split; [by intros [e ?]|].
      intros (_ & _ & _ & Hno). exfalso.
      apply list_find_Some in Hfind as (Hi & Hs & _).
      eapply Hno; [done..| |done]. by eapply list_elem_of_lookup_2.
    + split; [|done]. split; [by intros [e ?]|].
      intros (Hl & Ht1 & Ht2 & _). exfalso.
      destruct Hc as [[_ Hr]|[(_ & _ & Ht)|(_ & _ & Ht)]]; congruence.
    + split; [|by intros e [= <-]]. split; [|by eauto].
      intros _. repeat (split; [done|]). by apply and_then_source_None.
  - destruct (addSink_cases localUuid d st)
      as [(u & i & k & Hu & Hne & Hfind & ->)
         |[(Hnone & i & k & Hdev & ->)
          |[(Hnone & Hdev & c & Hc & ->)
           |(Hnone & Hdev & Hl & Ht1 & Ht2 & ->)]]]; simpl.
    + split; [|done]. split; [by intros [e ?]|].
      intros (_ & _ & _ & Hno). exfalso.
      apply list_find_Some in Hfind as (Hi & Hs & _).
      eapply Hno; [done..| |done]. by eapply list_elem_of_lookup_2.
    + split; [|done]. split; [by intros [e ?]|].
      intros (_ & Ht1 & _). exfalso. unfold sameDevice in Hdev.
      apply String.eqb_neq in Ht1. by rewrite Ht1 in Hdev.
    + split; [|done]. split; [by intros [e ?]|].
      intros (Hl & Ht1 & Ht2 & _). exfalso.
      destruct Hc as [[_ Hr]|[(_ & _ & Ht)|(_ & _ & Ht)]]; congruence.
    + split; [|by intros e [= <-]]. split; [|by eauto].
      intros _. repeat (split; [done|]). by apply and_then_sink_None.
Qed.

Lemma addSource_addSink_throw_iff_witness :
  (addSource uuid_L bogus_s2 with_s1).2 = with_s1
  ∧ isLocal uuid_L (sd_peerUuid bogus_s2) = true.
Proof.
  destruct (proj1 (addSource_addSink_throw_iff uuid_L with_s1) bogus_s2)
    as [Hiff Hthrow].
  split.
  - apply (Hthrow (Error "Unknown source type bogus")). reflexivity.
  - apply Hiff. eexists. reflexivity.
Defined.

(** X2.  A call of [addSource] leaves [sinks] alone and a call of
    [addSink] leaves [sources] alone.  The collection it works on keeps
    its length or gains one entity at the end.  The call emits the
    new-local event of an entity exactly when that entity is local and is
    the one it has just appended: never for a remote entity, never on an
    update, never when it throws. *)
Theorem addSource_addSink_effects (localUuid : string) (st : Manager) :
  (∀ d, let st' := (addSource localUuid d st).2 in
     sinks st' = sinks st
     ∧ (length (sources st') = length (sources st)
        ∨ ∃ s, sources st' = sources st ++ [s])
     ∧ ∃ es, emitted st' = emitted st ++ es
         ∧ ∀ s, newLocalSource s ∈ es
                ↔ source_local localUuid s = true
                  ∧ sources st' = sources st ++ [s])
  ∧ (∀ d, let st' := (addSink localUuid d st).2 in
       sources st' = sources st
       ∧ (length (sinks st') = length (sinks st)
          ∨ ∃ k, sinks st' = sinks st ++ [k])
       ∧ ∃ es, emitted st' = emitted st ++ es
           ∧ ∀ k, newLocalSink k ∈ es
                  ↔ sink_local localUuid k = true
                    ∧ sinks st' = sinks st ++ [k]).
Proof.
  assert (Hsame : ∀ {A} (l l' : list A) (x : A),
            length l' = length l → l' ≠ l ++ [x]).
  { intros A l l' x Hlen Heq. rewrite Heq, length_app in Hlen.
    simpl in Hlen. lia. }
  split; intros d st'; unfold st'.
  - destruct (addSource_cases localUuid d st)
      as [(u & i & s & Hu & Hne & Hfind & ->)
         |[(Hnone & c & Hc & ->)|(Hnone & Hl & Ht1 & Ht2 & ->)]].
    + split; [done|]. split; [left; apply length_insert|].
      eexists. split; [done|]. intros s0. split.
      * by intros [=]%list_elem_of_singleton.
      * intros [_ Heq]. simpl in Heq.
        by eapply Hsame in Heq; [|apply length_insert].
    + split; [done|]. split; [right; by eexists|].
      eexists. split; [done|]. intros s0. simpl.
      destruct (source_local localUuid (new_source c d)) eqn:El.
      * rewrite list_elem_of_singleton. split.
        -- by intros [= ->].
        -- intros [_ Heq%app_inv_head]. by simplify_eq.
      * split; [by intros ?%elem_of_nil|].
        intros [Hl0 Heq%app_inv_head]. simplify_eq. congruence.
    + split; [done|]. split; [by left|].
      exists []. split; [by rewrite app_nil_r|]. intros s0.
      split; [by intros ?%elem_of_nil|].
      intros [_ Heq]. simpl in Heq. by eapply Hsame in Heq.
  - destruct (addSink_cases localUuid d st)
      as [(u & i & k & Hu & Hne & Hfind & ->)
         |[(Hnone & i & k & Hdev & ->)
          |[(Hnone & Hdev & c & Hc & ->)
           |(Hnone & Hdev & Hl & Ht1 & Ht2 & ->)]]].
    + split; [done|]. split; [left; apply length_insert|].
      eexists. split; [done|]. intros k0. split.
      * by intros [=]%list_elem_of_singleton.
      * intros [_ Heq]. simpl in Heq.
        by eapply Hsame in Heq; [|apply length_insert].
    + split; [done|]. split; [left; apply length_insert|].
      eexists. split; [done|]. intros k0. split.
      * by intros [=]%list_elem_of_singleton.
      * intros [_ Heq]. simpl in Heq.
        by eapply Hsame in Heq; [|apply length_insert].
    + split; [done|]. split; [right; by eexists|].
      eexists. split; [done|]. intros k0. simpl.
      destruct (sink_local localUuid (new_sink c d)) eqn:El.
      * rewrite list_elem_of_singleton. split.
        -- by intros [= ->].
        -- intros [_ Heq%app_inv_head]. by simplify_eq.
      * split; [by intros ?%elem_of_nil|].
        intros [Hl0 Heq%app_inv_head]. simplify_eq. congruence.
    + split; [done|]. split; [by left|].
      exists []. split; [by rewrite app_nil_r|]. intros k0.
      split; [by intros ?%elem_of_nil|].
      intros [_ Heq]. simpl in Heq. by eapply Hsame in Heq.
Qed.

(** ** Looking up after a removal and after an addition *)

(** X3.  After [removeSource(uuid)] no source is found under that uuid,
    a second removal changes nothing, and the search for any other uuid
    finds the entity it found before; the same for sinks. *)
Theorem removeSource_removeSink_lookup (uuid : string) (st : Manager) :
  getSourceByUuid uuid (removeSource uuid st).2 = None
  ∧ removeSource uuid (removeSource uuid st).2
    = (Normal tt, (removeSource uuid st).2)
  ∧ (∀ other, other ≠ uuid →
       snd <$> getSourceByUuid other (removeSource uuid st).2
       = snd <$> getSourceByUuid other st)
  ∧ getSinkByUuid uuid (removeSink uuid st).2 = None
  ∧ removeSink uuid (removeSink uuid st).2
    = (Normal tt, (removeSink uuid st).2)
  ∧ (∀ other, other ≠ uuid →
       snd <$> getSinkByUuid other (removeSink uuid st).2
       = snd <$> getSinkByUuid other st).
Proof.
  assert (Hs : ∀ s, s ∈ filter (λ s, source_uuid s ≠ Some uuid) (sources st)
                 → source_uuid s ≠ Some uuid).
  { by intros s [? _]%list_elem_of_filter. }
  assert (Hk : ∀ k, k ∈ filter (λ k, sink_uuid k ≠ Some uuid) (sinks st)
                 → sink_uuid k ≠ Some uuid).
  { by intros k [? _]%list_elem_of_filter. }
  split; [|split; [|split; [|split; [|split]]]].
  - rewrite removeSource_run. apply list_find_None, Forall_forall, Hs.
  - rewrite (removeSource_run uuid st). rewrite removeSource_run. simpl.
    by rewrite (filter_uuid_id source_uuid).
  - intros other Hne. rewrite removeSource_run.
    unfold getSourceByUuid. simpl. apply list_find_filter_implied.
    intros s Hsu. rewrite Hsu. by intros [= ->].
  - rewrite removeSink_run. apply list_find_None, Forall_forall, Hk.
  - rewrite (removeSink_run uuid st). rewrite removeSink_run. simpl.
    by rewrite (filter_uuid_id sink_uuid).
  - intros other Hne. rewrite removeSink_run.
    unfold getSinkByUuid. simpl. apply list_find_filter_implied.
    intros k Hku. rewrite Hku. by intros [= ->].
Qed.

Lemma removeSource_removeSink_lookup_witness :
  snd <$> getSourceByUuid "s1" (removeSource "s2" with_s1).2
  = Some (new_source NullSource null_s1).
Proof.
  destruct (removeSource_removeSink_lookup "s2" with_s1)
    as (_ & _ & Hother & _).
  rewrite Hother by discriminate. reflexivity.
Defined.

(** X4.  When [addSource] returns normally for a descriptor with a
    non-empty uuid, [getSourceByUuid] of that uuid then finds a source
    with that uuid and with the descriptor's name and type, whether the
    call has updated a source or appended one; the same for [addSink] and
    [getSinkByUuid], the update by device name included. *)
Theorem addSource_addSink_then_get (localUuid : string) (st : Manager)
    (u : string) :
  u ≠ "" →
  (∀ d, sd_uuid d = Some u → (addSource localUuid d st).1 = Normal tt →
     ∃ i s, getSourceByUuid u (addSource localUuid d st).2 = Some (i, s)
       ∧ source_uuid s = Some u
       ∧ source_name s = sd_name d ∧ source_type s = sd_type d)
  ∧ (∀ d, kd_uuid d = Some u → (addSink localUuid d st).1 = Normal tt →
       ∃ i k, getSinkByUuid u (addSink localUuid d st).2 = Some (i, k)
         ∧ sink_uuid k = Some u
         ∧ sink_name k = kd_name d ∧ sink_type k = kd_type d).
Proof.
  intros Hne. split; intros d Hd Hret.
  - destruct (addSource_cases localUuid d st)
      as [(u' & i & s & Hu & _ & Hfind & Heq)
         |[(Hnone & c & Hc & Heq)|(Hnone & Hl & Ht1 & Ht2 & Heq)]];
      rewrite Heq in *; [| |done].
    + assert (u' = u) as -> by congruence.
      exists i, (source_updateInfo s d).
      split; [|by simpl; rewrite Hd].
      apply (list_find_insert_found _ _ _ s); [done|]. simpl. by rewrite Hd.
    + exists (length (sources st)), (new_source c d).
      split; [|done]. unfold getSourceByUuid. simpl.
      apply list_find_snoc_fresh; [|done].
      apply Forall_forall. intros s Hs.
      by eapply and_then_source_None in Hnone.
  - destruct (addSink_cases localUuid d st)
      as [(u' & i & k & Hu & _ & Hfind & Heq)
         |[(Hnone & i & k & Hdev & Heq)
          |[(Hnone & Hdev & c & Hc & Heq)
           |(Hnone & Hdev & Hl & Ht1 & Ht2 & Heq)]]];
      rewrite Heq in *; [| | |done].
    + assert (u' = u) as -> by congruence.
      exists i, (sink_updateInfo k d).
      split; [|by simpl; rewrite Hd].
      apply (list_find_insert_found _ _ _ k); [done|]. simpl. by rewrite Hd.
    + exists i, (sink_updateInfo k d).
      split; [|by simpl; rewrite Hd].
      unfold sameDevice in Hdev. case_match; [|done].
      apply list_find_Some in Hdev as (Hi & _).
      apply (list_find_insert_fresh _ _ _ k); [done|by simpl; rewrite Hd|].
      apply Forall_forall. intros k' Hk'.
      by eapply and_then_sink_None in Hnone.
    + exists (length (sinks st)), (new_sink c d).
      split; [|done]. unfold getSinkByUuid. simpl.
      apply list_find_snoc_fresh; [|done].
      apply Forall_forall. intros k Hk.
      by eapply and_then_sink_None in Hnone.
Qed.

Lemma addSource_addSink_then_get_witness :
  ∃ i s, getSourceByUuid "s1" (addSource uuid_L null_s1_renamed with_s1).2
         = Some (i, s)
    ∧ source_uuid s = Some "s1"
    ∧ source_name s = "N again" ∧ source_type s = "null".
Proof.
  assert (Hne : "s1" ≠ "") by discriminate.
  apply (proj1 (addSource_addSink_then_get uuid_L with_s1 "s1" Hne)
           null_s1_renamed); reflexivity.
Defined.

(** ** The device scan *)

Section Scan.

Variable localUuid : string.

(** A sink of the device: what the search by device name looks for. *)
Local Abbreviation of_device device :=
  (λ sink : AudioSink,
     sink_class sink = RtAudioSink
     ∧ sink_deviceName sink = Some (device_name device)).

(** The device has its sink, and a further scan would leave it as it is. *)
Local Abbreviation settled device l :=
  (∃ i k, list_find (of_device device) l = Some (i, k)
     ∧ sink_updateInfo k (detected localUuid device) = k).

Lemma isLocal_local : isLocal localUuid (Some localUuid) = true.
Proof.
  unfold isLocal. rewrite (bool_decide_eq_true_2 _ eq_refl).
  apply orb_true_r.
Qed.

Lemma sameDevice_detected (device : AudioDevice) (st : Manager) :
  sameDevice localUuid (detected localUuid device) st
  = list_find (of_device device) (sinks st).
Proof.
  unfold sameDevice. simpl. by rewrite (bool_decide_eq_true_2 _ eq_refl).
Qed.

Lemma addSink_detected (device : AudioDevice) (st : Manager) :
  addSink localUuid (detected localUuid device) st
  = (Normal tt,
     match list_find (of_device device) (sinks st) with
     | Some (i, k) =>
         sink_updated localUuid i
           (sink_updateInfo k (detected localUuid device)) st
     | None =>
         sink_pushed localUuid
           (new_sink RtAudioSink (detected localUuid device)) st
     end).
Proof.
  destruct (list_find _ _) as [[i k]|] eqn:E.
  - apply addSink_sameDevice; [done|]. by rewrite sameDevice_detected.
  - rewrite addSink_absent; [|done|by rewrite sameDevice_detected].
    simpl. by rewrite isLocal_local.
Qed.

Lemma addSink_detected_settles (device : AudioDevice) (st : Manager) :
  settled device (sinks (addSink localUuid (detected localUuid device) st).2).
Proof.
  rewrite addSink_detected. simpl.
  destruct (list_find (of_device device) (sinks st)) as [[i k]|] eqn:E;
    simpl.
  - exists i, (sink_updateInfo k (detected localUuid device)).
    split; [|done].
    apply (list_find_insert_found _ _ _ k); [done|].
    apply list_find_Some in E as (_ & [Hc _] & _). by split.
  - exists (length (sinks st)),
      (new_sink RtAudioSink (detected localUuid device)).
    split; [|done].
    apply list_find_None in E.
    apply list_find_snoc_fresh; [done|by split].
Qed.

Lemma addSink_detected_settled (device : AudioDevice) (st : Manager) :
  settled device (sinks st) →
  sinks (addSink localUuid (detected localUuid device) st).2 = sinks st.
Proof.
  intros (i & k & Hfind & Hk). rewrite addSink_detected, Hfind. simpl.
  rewrite Hk. apply list_insert_id.
  by apply list_find_Some in Hfind as (? & _).
Qed.

Lemma addSink_detected_keeps_settled (device other : AudioDevice)
    (st : Manager) :
  settled device (sinks st) →
  settled device (sinks (addSink localUuid (detected localUuid other) st).2).
Proof.
  intros Hset.
  destruct (decide (device_name other = device_name device)) as [Hn|Hn].
  - assert (detected localUuid other = detected localUuid device) as ->.
    { unfold detected. by rewrite Hn. }
    by rewrite addSink_detected_settled.
  - destruct Hset as (i & k & Hfind & Hk).
    exists i, k. split; [|done].
    rewrite addSink_detected.
    destruct (list_find (of_device other) (sinks st)) as [[j k2]|] eqn:E;
      simpl.
    + apply list_find_insert_other; [done| |].
      * simpl. intros [_ [= ?]]. done.
      * intros <-.
        apply list_find_Some in Hfind as (Hi & [_ Hd] & _).
        apply list_find_Some in E as (Hj & [_ Hd2] & _).
        congruence.
    + by apply list_find_app_l.
Qed.

Lemma autodetectDevices_cons (device : AudioDevice)
    (devices : list AudioDevice) (st : Manager) :
  autodetectDevices localUuid (device :: devices) st
  = autodetectDevices localUuid devices
      (if bool_decide (0 < outputChannels device)
       then (addSink localUuid (detected localUuid device) st).2
       else st).
Proof.
  unfold autodetectDevices at 1. simpl. unfold bind at 1.
  case_bool_decide.
  - fold (detected localUuid device). by rewrite addSink_detected.
  - done.
Qed.

Lemma autodetectDevices_keeps_settled (device : AudioDevice)
    (devices : list AudioDevice) (st : Manager) :
  settled device (sinks st) →
  settled device (sinks (autodetectDevices localUuid devices st).2).
Proof.
  revert st. induction devices as [|other devices IH]; intros st H; [done|].
  rewrite autodetectDevices_cons. apply IH.
  case_bool_decide; [|done]. by apply addSink_detected_keeps_settled.
Qed.

Lemma autodetectDevices_settles (devices : list AudioDevice) (st : Manager)
    (device : AudioDevice) :
  device ∈ devices → 0 < outputChannels device →
  settled device (sinks (autodetectDevices localUuid devices st).2).
Proof.
  revert st. induction devices as [|other devices IH]; intros st Hin Hout.
  - by apply elem_of_nil in Hin.
  - rewrite autodetectDevices_cons.
    apply elem_of_cons in Hin as [<-|Hin]; [|by apply IH].
    rewrite bool_decide_eq_true_2 by done.
    apply autodetectDevices_keeps_settled, addSink_detected_settles.
Qed.

Lemma autodetectDevices_settled (devices : list AudioDevice) (st : Manager) :
  (∀ device, device ∈ devices → 0 < outputChannels device →
             settled device (sinks st)) →
  sinks (autodetectDevices localUuid devices st).2 = sinks st.
Proof.
  revert st. induction devices as [|device devices IH]; intros st H; [done|].
  rewrite autodetectDevices_cons. case_bool_decide as Hout.
  - assert (Hsame :
      sinks (addSink localUuid (detected localUuid device) st).2 = sinks st).
    { apply addSink_detected_settled, H; [by left|done]. }
    rewrite IH; [done|]. intros other Hin Hout'. rewrite Hsame.
    apply H; [by right|done].
  - apply IH. intros other Hin Hout'. apply H; [by right|done].
Qed.

Lemma autodetectDevices_returns (devices : list AudioDevice) (st : Manager) :
  (autodetectDevices localUuid devices st).1 = Normal tt
  ∧ sources (autodetectDevices localUuid devices st).2 = sources st.
Proof.
  revert st. induction devices as [|device devices IH]; intros st; [done|].
  rewrite autodetectDevices_cons.
  destruct (IH (if bool_decide (0 < outputChannels device)
                then (addSink localUuid (detected localUuid device) st).2
                else st)) as [-> ->].
  split; [done|]. case_bool_decide; [|done].
  rewrite addSink_detected. simpl. by destruct (list_find _ _) as [[??]|].
Qed.

Lemma autodetectDevices_no_output (devices : list AudioDevice) (st : Manager) :
  (∀ device, device ∈ devices → outputChannels device = 0) →
  autodetectDevices localUuid devices st = (Normal tt, st).
Proof.
  induction devices as [|device devices IH]; intros H; [done|].
  rewrite autodetectDevices_cons.
  rewrite bool_decide_eq_false_2 by (rewrite (H device); [lia|by left]).
  apply IH. intros other Hin. apply H. by right.
Qed.

End Scan.

(** X5.  [autodetectDevices] never throws and leaves [sources] alone.
    After it every device with an output channel has an [RtAudioSink] of
    its device name in [sinks], named after the device and owned by the
    local peer; devices without output channel are skipped, so that a list
    of such devices leaves the manager exactly as it was. *)
Theorem autodetectDevices_scan (localUuid : string)
    (devices : list AudioDevice) (st : Manager) :
  let st' := (autodetectDevices localUuid devices st).2 in
  (autodetectDevices localUuid devices st).1 = Normal tt
  ∧ sources st' = sources st
  ∧ (∀ device, device ∈ devices → 0 < outputChannels device →
       ∃ k, k ∈ sinks st'
         ∧ sink_class k = RtAudioSink
         ∧ sink_deviceName k = Some (device_name device)
         ∧ sink_name k = device_name device
         ∧ sink_peerUuid k = Some localUuid)
  ∧ ((∀ device, device ∈ devices → outputChannels device = 0) →
     autodetectDevices localUuid devices st = (Normal tt, st)).
Proof.
  intros st'.
  destruct (autodetectDevices_returns localUuid devices st) as [Hret Hsrc].
  split; [done|]. split; [done|]. split.
  - intros device Hin Hout.
    destruct (autodetectDevices_settles localUuid devices st device Hin Hout)
      as (i & k & (Hi & [Hc Hd] & _)%list_find_Some & Hk).
    exists k. split; [by eapply list_elem_of_lookup_2|].
    split; [done|]. split; [done|]. rewrite <-Hk. by simpl.
  - apply autodetectDevices_no_output.
Qed.

Lemma autodetectDevices_scan_witness :
  (∃ k, k ∈ sinks scanned
     ∧ sink_class k = RtAudioSink
     ∧ sink_deviceName k = Some "Speakers"
     ∧ sink_name k = "Speakers"
     ∧ sink_peerUuid k = Some "L")
  ∧ autodetectDevices uuid_L [microphone] with_s1 = (Normal tt, with_s1).
Proof.
  split.
  - apply (proj1 (proj2 (proj2 (autodetectDevices_scan uuid_L
             [microphone; speakers] empty))) speakers).
    + right. left.
    + simpl. lia.
  - apply (proj2 (proj2 (proj2 (autodetectDevices_scan uuid_L
             [microphone] with_s1)))).
    intros device Hin. apply list_elem_of_singleton in Hin. by rewrite Hin.
Defined.

(** X6.  A second scan adds no sink and changes none: after
    [autodetectDevices] on a list of devices, scanning again any devices
    of that list leaves [sinks] as the first scan left it. *)
Theorem autodetectDevices_rescan (localUuid : string)
    (devices again : list AudioDevice) (st : Manager) :
  (∀ device, device ∈ again → 0 < outputChannels device → device ∈ devices) →
  let st' := (autodetectDevices localUuid devices st).2 in
  sinks (autodetectDevices localUuid again st').2 = sinks st'.
Proof.
  intros Hsub st'. apply autodetectDevices_settled.
  intros device Hin Hout.
  apply autodetectDevices_settles; [by apply Hsub|done].
Qed.

Lemma autodetectDevices_rescan_witness :
  sinks (autodetectDevices uuid_L [speakers; microphone] scanned).2
  = sinks scanned.
Proof.
  apply (autodetectDevices_rescan uuid_L [microphone; speakers]
           [speakers; microphone] empty).
  intros device Hin _.
  apply elem_of_cons in Hin as [->|Hin]; [right; left|].
  apply list_elem_of_singleton in Hin as ->. left.
Defined.

(** ** Loading the configuration *)

Lemma forEach_app {A} (f : A → M unit) (l1 l2 : list A) (st : Manager) :
  forEach f (l1 ++ l2) st
  = match forEach f l1 st with
    | (Normal _, st1) => forEach f l2 st1
    | (Throw e, st1) => (Throw e, st1)
    end.
Proof.
  revert st. induction l1 as [|x l1 IH]; intros st; [done|].
  simpl. unfold bind.
  destruct (f x st) as [[[]|e] st1]; [apply IH|done].
Qed.

Lemma forEach_invariant {A} (I : Manager → Prop) (f : A → M unit)
    (l : list A) (st : Manager) :
  (∀ x st, I st → I (f x st).2) → I st → I (forEach f l st).2.
Proof.
  intros Hf. revert st. induction l as [|x l IH]; intros st H; [done|].
  simpl. unfold bind. pose proof (Hf x st H) as Hx.
  destruct (f x st) as [[[]|e] st1]; [by apply IH|done].
Qed.

(** X7.  [addFromConfig] stops at the first descriptor on which
    [addSource] or [addSink] throws, with the exception of that call.
    When a source throws, the sources listed before it have been added,
    and neither the sources listed after it nor any sink of the
    configuration is added.  When all sources are added and a sink throws,
    the sinks listed before it have been added and those after it are
    not. *)
Theorem addFromConfig_stops_at_first_throw (localUuid : string)
    (st : Manager) (e : Exception) :
  (∀ before d after configSinks st1,
     forEach (addSource localUuid) before st = (Normal tt, st1) →
     (addSource localUuid d st1).1 = Throw e →
     addFromConfig localUuid (before ++ d :: after) configSinks st
     = (Throw e, st1))
  ∧ (∀ configSources before d after st1 st2,
       forEach (addSource localUuid) configSources st = (Normal tt, st1) →
       forEach (addSink localUuid) before st1 = (Normal tt, st2) →
       (addSink localUuid d st2).1 = Throw e →
       addFromConfig localUuid configSources (before ++ d :: after) st
       = (Throw e, st2)).
Proof.
  split.
  - intros before d after configSinks st1 Hbefore Hthrow.
    assert (Hd : addSource localUuid d st1 = (Throw e, st1)).
    { destruct (addSource_cases localUuid d st1)
        as [(u & i & s & _ & _ & _ & Heq)
           |[(_ & c & _ & Heq)|(_ & _ & _ & _ & Heq)]];
        rewrite Heq in *; simpl in Hthrow; by simplify_eq. }
    unfold addFromConfig, bind. rewrite forEach_app, Hbefore. simpl.
    unfold bind. by rewrite Hd.
  - intros configSources before d after st1 st2 Hsources Hbefore Hthrow.
    assert (Hd : addSink localUuid d st2 = (Throw e, st2)).
    { destruct (addSink_cases localUuid d st2)
        as [(u & i & k & _ & _ & _ & Heq)
           |[(_ & i & k & _ & Heq)
            |[(_ & _ & c & _ & Heq)|(_ & _ & _ & _ & _ & Heq)]]];
        rewrite Heq in *; simpl in Hthrow; by simplify_eq. }
    unfold addFromConfig, bind. rewrite Hsources, forEach_app, Hbefore.
    simpl. unfold bind. by rewrite Hd.
Qed.

Lemma addFromConfig_stops_at_first_throw_witness :
  addFromConfig uuid_L [null_s1; bogus_s2; remote_s3] [null_k1] empty
  = (Throw (Error "Unknown source type bogus"),
     (addSource uuid_L null_s1 empty).2)
  ∧ sources (addFromConfig uuid_L [null_s1; bogus_s2; remote_s3] [null_k1]
               empty).2
    = [new_source NullSource null_s1]
  ∧ sinks (addFromConfig uuid_L [null_s1; bogus_s2; remote_s3] [null_k1]
             empty).2
    = [].
Proof.
  assert (H : addFromConfig uuid_L [null_s1; bogus_s2; remote_s3] [null_k1]
                empty
              = (Throw (Error "Unknown source type bogus"),
                 (addSource uuid_L null_s1 empty).2)).
  { apply (proj1 (addFromConfig_stops_at_first_throw uuid_L empty
                    (Error "Unknown source type bogus"))
             [null_s1] bogus_s2 [remote_s3] [null_k1]); reflexivity. }
  split; [exact H|]. rewrite H. split; reflexivity.
Defined.

(** X8.  The two bulk operations keep the uuids distinct: when no two
    sources and no two sinks of the manager share a non-empty uuid, the
    same holds after [addFromConfig], whether it returns or stops on a
    throw, and after [autodetectDevices]. *)
Theorem bulk_operations_keep_uuids_distinct (localUuid : string)
    (configSources : list SourceDescriptor) (configSinks : list SinkDescriptor)
    (devices : list AudioDevice) (st : Manager) :
  distinct_uuids st →
  distinct_uuids (addFromConfig localUuid configSources configSinks st).2
  ∧ distinct_uuids (autodetectDevices localUuid devices st).2.
Proof.
  intros H. split.
  - unfold addFromConfig, bind.
    pose proof (forEach_invariant distinct_uuids (addSource localUuid)
                  configSources st
                  (addSource_distinct_uuids localUuid) H) as H1.
    destruct (forEach (addSource localUuid) configSources st)
      as [[[]|e] st1]; [|done].
    by apply forEach_invariant; [apply addSink_distinct_uuids|].
  - unfold autodetectDevices. apply forEach_invariant; [|done].
    intros device st0 H0. case_bool_decide; [|done].
    by apply addSink_distinct_uuids.
Qed.

Lemma bulk_operations_keep_uuids_distinct_witness :
  distinct_uuids
    (addFromConfig uuid_L [null_s1; null_s1_renamed] [null_k1] with_s1).2
  ∧ distinct_uuids (autodetectDevices uuid_L [speakers] with_s1).2.
Proof.
  apply (bulk_operations_keep_uuids_distinct uuid_L).
  apply (run_distinct_uuids uuid_L), empty_distinct_uuids.
Defined.

(** * Further properties of the peer registry *)

(** X9.  The registry never shrinks: whatever operations are made, every
    uuid that was a key stays a key; and one operation adds at most one
    key. *)
Theorem registry_never_shrinks (getLocalPeer : Peer)
    (SOUNDSYNC_VERSION : string) (st : PeersManager) :
  (∀ os, dom (peers st)
         ⊆ dom (peers (steps getLocalPeer SOUNDSYNC_VERSION os st)))
  ∧ (∀ o, ∃ k, dom (peers (step getLocalPeer SOUNDSYNC_VERSION o st))
               ⊆ {[k]} ∪ dom (peers st)).
Proof.
  split.
  - intros os k Hk. apply elem_of_dom, steps_keeps_keys.
    by apply elem_of_dom.
  - intros [body handshake|host uuid force outcome|uuid autoConnect
           |net message ignore|net|type|settles peer].
    + exists (req_uuid body). cbn [step]. unfold connect_webrtc_peer.
      case_bool_decide as Hversion; [set_solver|].
      destruct (peers st !! req_uuid body) as [existing|];
        [destruct (bool_decide _ && bool_decide _)|];
        destruct handshake; simpl; rewrite ?dom_insert_L; set_solver.
    + eexists. cbn [step joinPeerWithHttpApi snd log assign peers].
      by rewrite dom_insert_L.
    + exists uuid. cbn [step]. unfold getPeerByUuid.
      destruct (peers st !! uuid); [set_solver|].
      destruct autoConnect; cbn [snd log assign peers];
        by rewrite dom_insert_L.
    + exists "". cbn [step]. rewrite broadcast_peers. set_solver.
    + exists "". cbn [step]. unfold broadcastPeersDiscoveryInfo.
      rewrite broadcast_peers. set_solver.
    + exists "". cbn. set_solver.
    + exists "". cbn. set_solver.
Qed.

(** X10.  For a uuid that is not a name that [peers] inherits as an
    object, in a registry to whose key ["__proto__"] nothing has been
    assigned: [getPeerByUuid] returns the peer that the registry then
    holds under the uuid, and touches no other key.  A peer already
    registered is returned as it is, with the manager unchanged: no peer
    is created and none is asked to connect, whatever [autoConnect] is.
    Otherwise a placeholder is registered, and asked to connect exactly
    when [autoConnect] is true.  Asking again returns the same peer and
    changes nothing. *)
Theorem getPeerByUuid_spec (uuid : string) (autoConnect : bool)
    (st : PeersManager) :
  let peer := (getPeerByUuid uuid autoConnect st).1 in
  let st' := (getPeerByUuid uuid autoConnect st).2 in
  uuid ∉ Object_prototype_names →
  peers st !! "__proto__" = None →
  peers st' !! uuid = Some peer
  ∧ (∀ other, other ≠ uuid → peers st' !! other = peers st !! other)
  ∧ (∀ existing, peers st !! uuid = Some existing →
       peer = existing ∧ st' = st)
  ∧ (peers st !! uuid = None →
       peer = new_WebrtcPeer uuid "remote" "unknown" "placeholder"
       ∧ trace st'
         = trace st ++ set_peer uuid peer
             :: (if autoConnect then [connectFromOtherPeers peer] else []))
  ∧ (∀ again, getPeerByUuid uuid again st' = (peer, st')).
Proof.
  intros peer st' _ _. unfold peer, st', getPeerByUuid.
  destruct (peers st !! uuid) as [existing|] eqn:E; simpl.
  - split; [done|]. split; [done|]. split; [by intros ? [= <-]|].
    split; [done|]. intros again. by rewrite E.
  - assert (Hl : ∀ st1, peers st1 = <[uuid :=
        new_WebrtcPeer uuid "remote" "unknown" "placeholder"]> (peers st) →
      peers st1 !! uuid
      = Some (new_WebrtcPeer uuid "remote" "unknown" "placeholder")).
    { intros st1 ->. apply lookup_insert_eq. }
    destruct autoConnect; simpl;
      (split; [apply lookup_insert_eq|];
       split; [intros other Hne; by apply lookup_insert_ne|];
       split; [done|]; split; [by rewrite <-?app_assoc|];
       intros again; by rewrite lookup_insert_eq).
Qed.

Lemma getPeerByUuid_spec_witness :
  (getPeerByUuid "A" true registry_LA) = (peer_A, registry_LA)
  ∧ trace (getPeerByUuid "C" false registry_LA).2
    = trace registry_LA
      ++ [set_peer "C" (new_WebrtcPeer "C" "remote" "unknown" "placeholder")].
Proof.
  split.
  - destruct (getPeerByUuid_spec "A" true registry_LA)
      as (_ & _ & Hex & _);
      [apply (bool_decide_unpack _); by vm_compute|by vm_compute|].
    destruct (Hex peer_A) as [Hp Hst]; [by vm_compute|].
    rewrite (surjective_pairing (getPeerByUuid "A" true registry_LA)).
    by rewrite Hp, Hst.
  - destruct (getPeerByUuid_spec "C" false registry_LA)
      as (_ & _ & _ & Hnew & _);
      [apply (bool_decide_unpack _); by vm_compute|by vm_compute|].
    destruct Hnew as [Hp Ht]; [by vm_compute|].
    rewrite Ht, Hp. reflexivity.
Defined.

(** What the handler does once the version has been accepted. *)
Lemma connect_webrtc_peer_accepted (getLocalPeer : Peer)
    (SOUNDSYNC_VERSION : string) (body : ConnectRequest)
    (handshake : Settled string) (st : PeersManager) :
  req_version body = SOUNDSYNC_VERSION →
  let peer :=
    new_WebrtcPeer (req_uuid body) (req_name body) (req_ip body)
      (req_instanceUuid body) in
  let evicted :=
    match peers st !! req_uuid body with
    | Some existingPeer =>
        if bool_decide (peer_class existingPeer = WebrtcPeer)
           && bool_decide (peer_instanceUuid existingPeer
                           ≠ req_instanceUuid body)
        then [disconnect existingPeer true] else []
    | None => []
    end in
  let st' :=
    (connect_webrtc_peer getLocalPeer SOUNDSYNC_VERSION body handshake st).2 in
  peers st' = <[req_uuid body := peer]> (peers st)
  ∧ listeners st' = listeners st
  ∧ trace st'
    = trace st ++ evicted
      ++ [set_peer (req_uuid body) peer;
          handlePeerConnectionMessage peer (req_description body)].
Proof.
  intros Hv peer evicted st'. unfold st', evicted, connect_webrtc_peer.
  rewrite bool_decide_eq_false_2 by (by intros ?).
  destruct (peers st !! req_uuid body) as [existing|];
    [destruct (bool_decide _ && bool_decide _)|];
    destruct handshake; simpl;
    rewrite ?insert_insert_eq, <-?app_assoc; done.
Qed.

(** X11.  What the handler of a connection request leaves in the manager
    does not depend on how the handshake settles.  When the version is
    accepted and the handshake is rejected, the request fails with that
    rejection while the new peer is registered all the same; when the
    handshake is fulfilled, the answer is ["ok"] with the description of
    the handshake and the uuid, name and instanceUuid of the local
    peer. *)
Theorem connect_webrtc_peer_handshake (getLocalPeer : Peer)
    (SOUNDSYNC_VERSION : string) (body : ConnectRequest) (st : PeersManager) :
  (∀ h1 h2,
     (connect_webrtc_peer getLocalPeer SOUNDSYNC_VERSION body h1 st).2
     = (connect_webrtc_peer getLocalPeer SOUNDSYNC_VERSION body h2 st).2)
  ∧ (req_version body = SOUNDSYNC_VERSION →
     (∀ reason,
        (connect_webrtc_peer getLocalPeer SOUNDSYNC_VERSION body
           (Rejected reason) st).1 = Throw (Error reason)
        ∧ peers (connect_webrtc_peer getLocalPeer SOUNDSYNC_VERSION body
                   (Rejected reason) st).2 !! req_uuid body
          = Some (new_WebrtcPeer (req_uuid body) (req_name body)
                    (req_ip body) (req_instanceUuid body)))
     ∧ (∀ description,
          (connect_webrtc_peer getLocalPeer SOUNDSYNC_VERSION body
             (Fulfilled description) st).1
          = Normal {| res_status := "ok";
                      res_description := description;
                      res_uuid := peer_uuid getLocalPeer;
                      res_name := peer_name getLocalPeer;
                      res_instanceUuid := peer_instanceUuid getLocalPeer |})).
Proof.
  split.
  - intros h1 h2. unfold connect_webrtc_peer.
    case_bool_decide; [done|]. by destruct h1, h2.
  - intros Hv. split.
    + intros reason. split.
      * unfold connect_webrtc_peer.
        by rewrite bool_decide_eq_false_2 by (by intros ?).
      * destruct (connect_webrtc_peer_accepted getLocalPeer
                    SOUNDSYNC_VERSION body (Rejected reason) st Hv)
          as (-> & _). apply lookup_insert_eq.
    + intros description. unfold connect_webrtc_peer.
      by rewrite bool_decide_eq_false_2 by (by intros ?).
Qed.

Lemma connect_webrtc_peer_handshake_witness :
  (connect_webrtc_peer local_L version_1_9 request_B (Rejected "timeout")
     registry_LA).1 = Throw (Error "timeout")
  ∧ peers (connect_webrtc_peer local_L version_1_9 request_B
             (Rejected "timeout") registry_LA).2 !! "B"
    = Some peer_B.
Proof.
  apply (proj2 (connect_webrtc_peer_handshake local_L version_1_9
                  request_B registry_LA)).
  reflexivity.
Defined.

(** X12.  The handler calls [disconnect] in one case only.  Among the
    calls it makes, [disconnect(force)] on a peer occurs exactly when
    [force] is [true], the version is this process's, and that peer is the
    one registered under the uuid of the request, is a [WebrtcPeer], and
    has another [instanceUuid] than the request: not for an unknown uuid,
    not for the same [instanceUuid], not for a rejected version. *)
Theorem connect_webrtc_peer_disconnects_iff (getLocalPeer : Peer)
    (SOUNDSYNC_VERSION : string) (body : ConnectRequest)
    (handshake : Settled string) (st : PeersManager) :
  ∃ calls,
    trace (connect_webrtc_peer getLocalPeer SOUNDSYNC_VERSION body
             handshake st).2 = trace st ++ calls
    ∧ ∀ peer force,
        disconnect peer force ∈ calls
        ↔ force = true
          ∧ req_version body = SOUNDSYNC_VERSION
          ∧ peers st !! req_uuid body = Some peer
          ∧ peer_class peer = WebrtcPeer
          ∧ peer_instanceUuid peer ≠ req_instanceUuid body.
Proof.
  destruct (decide (req_version body = SOUNDSYNC_VERSION)) as [Hv|Hv].
  - destruct (connect_webrtc_peer_accepted getLocalPeer SOUNDSYNC_VERSION
                body handshake st Hv) as (_ & _ & Ht).
    eexists. split; [exact Ht|]. intros peer force.
    rewrite elem_of_app, !elem_of_cons, elem_of_nil.
    destruct (peers st !! req_uuid body) as [existing|] eqn:E.
    + destruct (decide (peer_class existing = WebrtcPeer)) as [Hc|Hc];
        [destruct (decide (peer_instanceUuid existing
                           ≠ req_instanceUuid body)) as [Hi|Hi]|].
      * rewrite !bool_decide_eq_true_2 by done. simpl.
        rewrite list_elem_of_singleton. split.
        -- intros [[= -> ->]|[?|[?|[]]]]; done.
        -- intros (-> & _ & [= ->] & _). by left.
      * rewrite (bool_decide_eq_false_2 _ Hi), andb_false_r.
        split; [intros [[]%elem_of_nil|[?|[?|[]]]]; done|].
        by intros (_ & _ & [= ->] & _ & ?).
      * rewrite (bool_decide_eq_false_2 _ Hc). simpl.
        split; [intros [[]%elem_of_nil|[?|[?|[]]]]; done|].
        by intros (_ & _ & [= ->] & ? & _).
    + split; [intros [[]%elem_of_nil|[?|[?|[]]]]; done|].
      by intros (_ & _ & ? & _).
  - exists []. split.
    + unfold connect_webrtc_peer. rewrite bool_decide_eq_true_2 by done.
      by rewrite app_nil_r.
    + intros peer force. split; [by intros ?%elem_of_nil|].
      by intros (_ & ? & _).
Qed.

Lemma connect_webrtc_peer_disconnects_iff_witness :
  ∃ calls,
    trace (connect_webrtc_peer local_L version_1_9 request_A_restarted
             (Fulfilled "answer") registry_LA).2
    = trace registry_LA ++ calls
    ∧ disconnect peer_A true ∈ calls.
Proof.
  destruct (connect_webrtc_peer_disconnects_iff local_L version_1_9
              request_A_restarted (Fulfilled "answer") registry_LA)
    as (calls & Ht & Hiff).
  exists calls. split; [exact Ht|].
  apply Hiff. split; [reflexivity|]. split; [reflexivity|].
  split; [by vm_compute|]. split; [reflexivity|discriminate].
Defined.

Lemma broadcast_promise_witness :
  (broadcast (λ _, Normal (Fulfilled true)) (otherMessage "ping") ["L"]
     registry_LAB).1 = Fulfilled tt.
Proof.
  apply (proj2 (broadcast_promise (λ _, Normal (Fulfilled true))
                  (otherMessage "ping") ["L"] registry_LAB)).
  intros u peer _ _. by exists true.
Defined.

(** X14.  [broadcastPeersDiscoveryInfo] leaves the registry as it is and
    visits its peers one after the other, each key once, whatever the
    state of the peer and the local peer included.  The message lists the
    uuids of the registered peers whose state is ['connected'], in the
    order of the visit, and no other.  As long as no send throws, the
    calls made are exactly one send of that message to each peer, in the
    order of the visit; a send that throws is the last call made. *)
Theorem broadcastPeersDiscoveryInfo_spec
    (net : Peer → Completion (Settled bool)) (st : PeersManager) :
  let st' := broadcastPeersDiscoveryInfo net st in
  let message := peerDiscovery (connectedPeersUuid st) in
  let send peer := sendControllerMessage peer message (net peer) in
  peers st' = peers st
  ∧ peers_values st ≡ₚ (map_to_list (peers st)).*2
  ∧ connectedPeersUuid st
    = peer_uuid <$> filter (λ peer, peer_state peer = connected)
                      (peers_values st)
  ∧ (∀ uuid, uuid ∈ connectedPeersUuid st
             ↔ ∃ u peer, peers st !! u = Some peer
                 ∧ peer_state peer = connected
                 ∧ peer_uuid peer = uuid)
  ∧ ((∀ u peer, peers st !! u = Some peer →
        ∃ promise, net peer = Normal promise) →
     trace st' = trace st ++ (send <$> peers_values st))
  ∧ (∀ before failing after e,
       peers_values st = before ++ failing :: after →
       Forall (λ peer, ∃ promise, net peer = Normal promise) before →
       net failing = Throw e →
       trace st' = trace st ++ (send <$> before) ++ [send failing]).
Proof.
  intros st' message send.
  assert (∀ values : list Peer,
            filter (λ peer, peer_uuid peer ∉ @nil string) values = values)
    as Hfilter.
  { intros values. apply filter_all, Forall_forall.
    intros peer _. apply not_elem_of_nil. }
  split; [done|]. split; [apply peers_values_Permutation|].
  split; [done|]. split; [|split].
  - intros uuid. unfold connectedPeersUuid.
    rewrite list_elem_of_fmap. split.
    + intros (peer & -> & [Hs [u Hu]%peers_values_spec]%list_elem_of_filter).
      by exists u, peer.
    + intros (u & peer & Hu & Hs & <-). exists peer. split; [done|].
      apply list_elem_of_filter. split; [done|].
      apply peers_values_spec. by exists u.
  - intros Hnet. unfold st', broadcastPeersDiscoveryInfo, broadcast.
    cbn [snd trace]. f_equal.
    rewrite <-(Hfilter (peers_values st)) at 2.
    apply map_sendToPeer_returns, Forall_forall.
    intros peer [u Hu]%peers_values_spec. right. by eapply Hnet.
  - intros before failing after e Hvalues Hbefore He.
    unfold st', broadcastPeersDiscoveryInfo, broadcast.
    cbn [snd trace]. rewrite Hvalues.
    rewrite (map_sendToPeer_throws net _ [] before after failing e);
      [|by eapply Forall_impl; [exact Hbefore|]; intros ? ?; right
       |apply not_elem_of_nil|done].
    cbn [fst]. rewrite Hfilter. unfold send. by rewrite He.
Qed.

Lemma broadcastPeersDiscoveryInfo_spec_witness :
  trace (broadcastPeersDiscoveryInfo A_unreachable registry_LAB)
  = trace registry_LAB
    ++ [sendControllerMessage local_L (peerDiscovery ["L"])
          (Normal (Fulfilled true));
        sendControllerMessage peer_A (peerDiscovery ["L"])
          (Normal (Rejected "closed"));
        sendControllerMessage peer_B (peerDiscovery ["L"])
          (Normal (Fulfilled true))]
  ∧ trace (broadcastPeersDiscoveryInfo A_throws registry_LAB)
    = trace registry_LAB
      ++ [sendControllerMessage local_L (peerDiscovery ["L"])
            (Normal (Fulfilled true));
          sendControllerMessage peer_A (peerDiscovery ["L"])
            (Throw (Error "channel closed"))].
Proof.
  split.
  - rewrite (proj1 (proj2 (proj2 (proj2 (proj2
      (broadcastPeersDiscoveryInfo_spec A_unreachable registry_LAB)))))
      (λ _ peer _,
         match decide (peer = peer_A) as d
         return ∃ promise,
           (if d then Normal (Rejected "closed")
            else Normal (Fulfilled true)) = Normal promise
         with
         | left _ => ex_intro _ (Rejected "closed") eq_refl
         | right _ => ex_intro _ (Fulfilled true) eq_refl
         end)).
    by vm_compute.
  - rewrite (proj2 (proj2 (proj2 (proj2 (proj2
      (broadcastPeersDiscoveryInfo_spec A_throws registry_LAB)))))
      [local_L] peer_A [peer_B] (Error "channel closed")).
    + by vm_compute.
    + by vm_compute.
    + apply Forall_cons. split; [|apply Forall_nil_2].
      exists (Fulfilled true). by vm_compute.
    + by vm_compute.
Defined.



(** X16.  [getPeersManager] never throws and always hands out the one
    manager: the first call builds it, with the local peer registered, and
    stores it; every later call returns the stored manager and builds
    nothing.  Once it is stored, [new PeersManager()] throws. *)
Theorem getPeersManager_singleton (getLocalPeer : Peer)
    (peersManager : option PeersManager) :
  ∃ manager,
    getPeersManager getLocalPeer peersManager = (Normal manager, Some manager)
    ∧ (peersManager = None → manager = constructed getLocalPeer)
    ∧ (∀ stored, peersManager = Some stored → manager = stored)
    ∧ getPeersManager getLocalPeer (Some manager)
      = (Normal manager, Some manager)
    ∧ new_PeersManager getLocalPeer (Some manager)
      = Throw (Error "Cannot create multiple peers managers").
Proof.
  destruct peersManager as [stored|]; simpl.
  - exists stored. split; [done|]. split; [done|].
    split; [by intros ? [= <-]|done].
  - exists (constructed getLocalPeer). by repeat split.
Qed.

Lemma getPeersManager_singleton_witness :
  ∃ manager,
    getPeersManager local_L (Some registry_LA)
    = (Normal manager, Some manager)
    ∧ manager = registry_LA.
Proof.
  destruct (getPeersManager_singleton local_L (Some registry_LA))
    as (manager & Hget & _ & Hstored & _).
  exists manager. split; [exact Hget|]. by apply Hstored.
Defined.

(** X17.  A peer installed by a connection request or by
    [joinPeerWithHttpApi] is the one that [getPeerByUuid] then returns for
    its uuid: no placeholder is created over it, nothing is called and the
    manager is unchanged. *)
Theorem getPeerByUuid_after_registration (getLocalPeer : Peer)
    (SOUNDSYNC_VERSION : string) (st : PeersManager) (autoConnect : bool) :
  (∀ body handshake,
     req_version body = SOUNDSYNC_VERSION →
     let st' :=
       (connect_webrtc_peer getLocalPeer SOUNDSYNC_VERSION body
          handshake st).2 in
     getPeerByUuid (req_uuid body) autoConnect st'
     = (new_WebrtcPeer (req_uuid body) (req_name body) (req_ip body)
          (req_instanceUuid body), st'))
  ∧ (∀ host uuid force outcome,
       let key := or_else uuid ("placeholderForHttpApiJoin_" +:+ host) in
       let st' := (joinPeerWithHttpApi host uuid force outcome st).2 in
       getPeerByUuid key autoConnect st'
       = (new_WebrtcPeer key "remote" host "placeholder", st')).
Proof.
  split.
  - intros body handshake Hv st'.
    destruct (connect_webrtc_peer_accepted getLocalPeer SOUNDSYNC_VERSION
                body handshake st Hv) as (Hp & _).
    fold st' in Hp. unfold getPeerByUuid.
    by rewrite Hp, lookup_insert_eq.
  - intros host uuid force outcome key st'.
    unfold getPeerByUuid, st', joinPeerWithHttpApi. simpl.
    by rewrite lookup_insert_eq.
Qed.

Lemma getPeerByUuid_after_registration_witness :
  getPeerByUuid "B" true
    (connect_webrtc_peer local_L version_1_9 request_B (Rejected "timeout")
       registry_LA).2
  = (peer_B,
     (connect_webrtc_peer local_L version_1_9 request_B (Rejected "timeout")
        registry_LA).2).
Proof.
  apply (proj1 (getPeerByUuid_after_registration local_L version_1_9
                  registry_LA true) request_B (Rejected "timeout")).
  reflexivity.
Defined.

(** X18.  Adding a source under a non-empty uuid that no source has, and
    then removing that uuid, gives back the collection of sources as it
    was; the events emitted and the configuration written by the addition
    stay. *)
Theorem addSource_then_removeSource (localUuid : string)
    (d : SourceDescriptor) (u : string) (st : Manager) :
  sd_uuid d = Some u → u ≠ "" →
  (∀ s, s ∈ sources st → source_uuid s ≠ Some u) →
  let st' := (removeSource u (addSource localUuid d st).2).2 in
  sources st' = sources st
  ∧ sinks st' = sinks st
  ∧ emitted st' = emitted (addSource localUuid d st).2
  ∧ config st' = config (addSource localUuid d st).2.
Proof.
  intros Hd Hne Hfresh st'. unfold st'. rewrite removeSource_run. simpl.
  split; [|split; [|done]].
  - destruct (addSource_cases localUuid d st)
      as [(u' & i & s & Hu & _ & Hfind & Heq)
         |[(Hnone & c & Hc & Heq)|(Hnone & Hl & Ht1 & Ht2 & Heq)]];
      rewrite Heq; simpl.
    + exfalso. assert (u' = u) as -> by congruence.
      apply list_find_Some in Hfind as (Hi & Hs & _).
      eapply Hfresh; [|done]. by eapply list_elem_of_lookup_2.
    + rewrite filter_app, (filter_uuid_id source_uuid) by done.
      rewrite filter_cons_False by (simpl; by intros H; apply H).
      apply app_nil_r.
    + by apply (filter_uuid_id source_uuid).
  - destruct (addSource_cases localUuid d st)
      as [(u' & i & s & Hu & _ & Hfind & Heq)
         |[(Hnone & c & Hc & Heq)|(Hnone & Hl & Ht1 & Ht2 & Heq)]];
      by rewrite Heq.
Qed.

Lemma addSource_then_removeSource_witness :
  sources (removeSource "s3" (addSource uuid_L remote_s3 with_s1).2).2
  = sources with_s1.
Proof.
  apply (addSource_then_removeSource uuid_L remote_s3 "s3" with_s1).
  - reflexivity.
  - discriminate.
  - intros s Hin. vm_compute in Hin.
    apply list_elem_of_singleton in Hin. rewrite Hin. discriminate.
Defined.
